(** * fix-uri-imports.py: a shallow embedding and its properties

    The program is a batch rewriter: for every regular file matched by
    [server/src/**/*.ts] it reads the text, applies one literal
    [str.replace] and two [re.sub] passes, and writes the file back when
    the text changed.

    Python [str] values are modelled as lists of characters ([ascii]);
    every literal of the program is plain ASCII.  The two regular
    expressions are kept as data and run by a backtracking matcher with
    Python's greedy semantics; [str.replace] and [re.sub] share one
    left-to-right scanner.  The file system and the console are an
    explicit state threaded through an error monad. *)

From Stdlib Require Import List Ascii String Arith Lia Bool.
From stdpp Require Import base option list gmap strings.
Import ListNotations.

Local Open Scope list_scope.
Local Open Scope char_scope.

(** ** Text *)

Definition text : Type := list ascii.

(** A Python string literal. *)
Definition lit (s : string) : text := list_ascii_of_string s.

Definition newline : ascii := "010".
Definition dquote : ascii := "034".
Definition rparen : ascii := ")".
Definition comma : ascii := ",".

(** [s.startswith(p)] *)
Fixpoint starts_with (p s : text) : bool :=
  match p, s with
  | [], _ => true
  | _ :: _, [] => false
  | a :: p', b :: s' => Ascii.eqb a b && starts_with p' s'
  end.

(** [p in s] *)
Fixpoint contains (p s : text) : bool :=
  starts_with p s ||
  match s with
  | [] => false
  | _ :: s' => contains p s'
  end.

(** Number of positions of [s] at which [p] occurs. *)
Fixpoint occurrences (p s : text) : nat :=
  (if starts_with p s then 1 else 0) +
  match s with
  | [] => 0
  | _ :: s' => occurrences p s'
  end.

(** ** The left-to-right scanner behind [str.replace] and [re.sub]

    A matcher looks at the text from the current position on and answers
    with the replacement and the length of the match.  The scanner emits
    the replacement, skips the matched characters and goes on after the
    match; where nothing matches it copies one character.  Every pattern
    of the program matches at least one character. *)

Definition matcher : Type := text -> option (text * nat).

Fixpoint scan (m : matcher) (skip : nat) (s : text) : text :=
  match s with
  | [] => []
  | c :: s' =>
      match skip with
      | S k => scan m k s'
      | O =>
          match m s with
          | Some (rep, n) => rep ++ scan m (pred n) s'
          | None => c :: scan m 0 s'
          end
      end
  end.

(** [s.replace(old, new)] for a non-empty [old]. *)
Definition replace_matcher (old new : text) : matcher :=
  fun s => if starts_with old s then Some (new, length old) else None.

Definition str_replace (old new s : text) : text :=
  scan (replace_matcher old new) 0 s.

(** ** Regular expressions

    The fragment of Python's [re] syntax the program uses: literal
    characters, a negated one-character class under a greedy [+],
    concatenation, alternation and one capturing group. *)

Inductive regex : Type :=
| REmpty
| RChar (c : ascii)
| RNotPlus (c : ascii)
| RSeq (r1 r2 : regex)
| RAlt (r1 r2 : regex)
| RGroup (r : regex).

(** A run of literal characters. *)
Fixpoint rlit (s : text) : regex :=
  match s with
  | [] => REmpty
  | c :: s' => RSeq (RChar c) (rlit s')
  end.

(** The result of a match: the text after the match and group 1. *)
Definition mresult : Type := text * option text.
Definition mcont : Type := text -> option text -> option mresult.

(** [[^c]+], greedy: take as many characters as possible and give one
    back at a time while the rest of the pattern fails. *)
Fixpoint not_plus (c : ascii) (s : text) (k : text -> option mresult)
  : option mresult :=
  match s with
  | [] => None
  | a :: s' =>
      if Ascii.eqb a c then None
      else match not_plus c s' k with
           | Some r => Some r
           | None => k s'
           end
  end.

(** The backtracking matcher, in continuation-passing style: [k] is the
    rest of the pattern. *)
Fixpoint rmatch (r : regex) (s : text) (g : option text) (k : mcont)
  : option mresult :=
  match r with
  | REmpty => k s g
  | RChar c =>
      match s with
      | [] => None
      | a :: s' => if Ascii.eqb a c then k s' g else None
      end
  | RNotPlus c => not_plus c s (fun s' => k s' g)
  | RSeq r1 r2 => rmatch r1 s g (fun s' g' => rmatch r2 s' g' k)
  | RAlt r1 r2 =>
      match rmatch r1 s g k with
      | Some x => Some x
      | None => rmatch r2 s g k
      end
  | RGroup r1 =>
      rmatch r1 s g
        (fun s' _ => k s' (Some (take (length s - length s') s)))
  end.

(** [pattern.match(s)] at the current position. *)
Definition re_match (r : regex) (s : text) : option mresult :=
  rmatch r s None (fun s' g => Some (s', g)).

(** [m.group(1)] *)
Definition group1 (g : option text) : text := default [] g.

(** [re.sub(pattern, repl, s)]; [repl] receives group 1. *)
Definition sub_matcher (r : regex) (repl : option text -> text) : matcher :=
  fun s =>
    match re_match r s with
    | Some (rest, g) => Some (repl g, length s - length rest)
    | None => None
    end.

Definition re_sub (r : regex) (repl : option text -> text) (s : text) : text :=
  scan (sub_matcher r repl) 0 s.

(** Does the pattern match somewhere in [s]? *)
Fixpoint re_search (r : regex) (s : text) : bool :=
  match re_match r s with
  | Some _ => true
  | None =>
      match s with
      | [] => false
      | _ :: s' => re_search r s'
      end
  end.

(** ** The constants of [fix_file] *)

Definition uri_import : text := lit "import { URI } from 'vscode-uri'".
Definition path_import : text := lit "import * as path from 'path'".
Definition uri_import_stmt : text := lit "import { URI } from 'vscode-uri';".
Definition uri_path_import_stmt : text :=
  lit "import { URI } from 'vscode-uri';" ++
  newline :: lit "import * as path from 'path';".

(** [r'path\.join\((URI\.(?:parse|file)\([^)]+\)),'] *)
Definition join_pattern : regex :=
  RSeq (rlit (lit "path.join("))
    (RSeq
       (RGroup
          (RSeq (rlit (lit "URI."))
             (RSeq (RAlt (rlit (lit "parse")) (rlit (lit "file")))
                (RSeq (RChar "(") (RSeq (RNotPlus ")") (RChar ")"))))))
       (RChar ",")).

(** [lambda m: f"path.join({m.group(1)}.fsPath,"] *)
Definition join_repl (g : option text) : text :=
  lit "path.join(" ++ group1 g ++ lit ".fsPath,".

(** [r'URI\.joinPath\([^)]+\)'] *)
Definition joinpath_pattern : regex :=
  RSeq (rlit (lit "URI.joinPath(")) (RSeq (RNotPlus ")") (RChar ")")).

(** ['URI.file("FIXME")'] *)
Definition fixme : text :=
  lit "URI.file(" ++ dquote :: lit "FIXME" ++ [dquote; rparen].

Definition joinpath_repl (_ : option text) : text := fixme.

(** The placeholder without its closing parenthesis. *)
Definition fixme_body : text :=
  lit "URI.file(" ++ dquote :: lit "FIXME" ++ [dquote].

(** ** The three rules, in the order [fix_file] applies them *)

Definition rule1_guard (content : text) : bool :=
  contains uri_import content && negb (contains path_import content).

Definition rule1 (content : text) : text :=
  if rule1_guard content
  then str_replace uri_import_stmt uri_path_import_stmt content
  else content.

Definition rule2 (content : text) : text :=
  re_sub join_pattern join_repl content.

Definition rule3 (content : text) : text :=
  re_sub joinpath_pattern joinpath_repl content.

(** The content [fix_file] ends with. *)
Definition transform (original : text) : text :=
  rule3 (rule2 (rule1 original)).

(** ** Files, console and I/O errors

    The world is the part of the file system the program can see, plus a
    trace of what it did: files opened for reading, files opened for
    writing, lines printed.  An I/O operation either returns or raises;
    nothing in the program catches an exception, so a raised error ends
    every enclosing computation, and the world stays as the failing
    operation left it. *)

Inductive entry : Type :=
| File (content : text) (readable writable : bool)
| Dir.
(* [content] is the text as Python's text mode hands it over; decoding and
   newline translation stay outside the model.  A file that cannot be
   opened is one with the flag off: a denied [open] leaves it as it was.
   Every path is an entry of its own, and for a regular file the flags
   are the only source of failure: symbolic and hard links, by which two
   paths name one file, a text that does not decode, a full disk or a
   write that stops half way are outside the model. *)

Inductive event : Type :=
| EvRead (filepath : string)
| EvWrite (filepath : string)
| EvPrint (line : string).

Record world : Type := World {
  files : gmap string entry;
  trace : list event
}.

Inductive io_error : Type :=
| ReadError (filepath : string)
| WriteError (filepath : string).

Inductive outcome (A : Type) : Type :=
| Ok (a : A)
| Raise (e : io_error).
Arguments Ok {A} a.
Arguments Raise {A} e.

Definition io (A : Type) : Type := world -> world * outcome A.

Definition io_ret {A} (a : A) : io A := fun w => (w, Ok a).

Definition io_bind {A B} (m : io A) (k : A -> io B) : io B :=
  fun w =>
    match m w with
    | (w', Ok a) => k a w'
    | (w', Raise e) => (w', Raise e)
    end.

Notation "x <- m ;; k" := (io_bind m (fun x => k))
  (at level 100, m at next level, right associativity).
Notation "m ;;; k" := (io_bind m (fun _ => k))
  (at level 100, right associativity).

Definition log (e : event) (w : world) : world :=
  World (files w) (trace w ++ [e]).

(** [with open(filepath, 'r') as f: f.read()] *)
Definition read_file (filepath : string) : io text :=
  fun w =>
    match files w !! filepath with
    | Some (File content true _) => (log (EvRead filepath) w, Ok content)
    | _ => (w, Raise (ReadError filepath))
    end.

(** [with open(filepath, 'w') as f: f.write(content)]; mode ['w'] creates
    a missing file. *)
Definition write_file (filepath : string) (content : text) : io unit :=
  fun w =>
    match files w !! filepath with
    | Some (File _ r true) =>
        (log (EvWrite filepath)
           (World (<[filepath := File content r true]> (files w)) (trace w)),
         Ok tt)
    | None =>
        (log (EvWrite filepath)
           (World (<[filepath := File content true true]> (files w)) (trace w)),
         Ok tt)
    | _ => (w, Raise (WriteError filepath))
    end.

(** [print(line)] *)
Definition print (line : string) : io unit :=
  fun w => (log (EvPrint line) w, Ok tt).

(** [os.path.isfile(filepath)] *)
Definition isfile (filepath : string) : io bool :=
  fun w =>
    (w, Ok match files w !! filepath with
           | Some (File _ _ _) => true
           | _ => false
           end).

(** ** [fix_file] and the driver loop *)

Definition fix_file (filepath : string) : io unit :=
  content <- read_file filepath ;;
  let original := content in
  let content := rule1 content in
  let content := rule2 content in
  let content := rule3 content in
  if bool_decide (content <> original) then
    write_file filepath content ;;;
    print ("Fixed " +:+ filepath)
  else io_ret tt.

(** [for x in xs: body(x)] *)
Fixpoint for_each {A} (xs : list A) (body : A -> io unit) : io unit :=
  match xs with
  | [] => io_ret tt
  | x :: xs' => body x ;;; for_each xs' body
  end.

Definition patterns : list string := ["server/src/**/*.ts"%string].

(** The body of the inner loop: [if os.path.isfile(filepath):
    fix_file(filepath)]. *)
Definition visit (filepath : string) : io unit :=
  b <- isfile filepath ;;
  if b then fix_file filepath else io_ret tt.

(** The module body.  [glob] stands for [glob.glob(pattern,
    recursive=True)], which returns its whole list before the first file
    is touched. *)
Definition main (glob : string -> list string) : io unit :=
  for_each patterns (fun pattern => for_each (glob pattern) visit) ;;;
  print "Done!".

(** The lines printed, in order. *)
Definition console (w : world) : list string :=
  omap (fun e => match e with EvPrint l => Some l | _ => None end) (trace w).

(** The files opened for writing, in order. *)
Definition written (w : world) : list string :=
  omap (fun e => match e with EvWrite p => Some p | _ => None end) (trace w).

(** ** Vocabulary of the properties *)

(** What a regular expression matches, declaratively: [sem r m g g'] says
    that [r] matches exactly the text [m] and turns group 1 from [g] into
    [g'].  The backtracking matcher is proved sound for it. *)
Fixpoint sem (r : regex) (m : text) (g g' : option text) : Prop :=
  match r with
  | REmpty => m = [] /\ g' = g
  | RChar c => m = [c] /\ g' = g
  | RNotPlus c => m <> [] /\ (c ∉ m) /\ g' = g
  | RSeq r1 r2 =>
      exists m1 m2 g1, m = m1 ++ m2 /\ sem r1 m1 g g1 /\ sem r2 m2 g1 g'
  | RAlt r1 r2 => sem r1 m g g' \/ sem r2 m g g'
  | RGroup r1 => (exists g1, sem r1 m g g1) /\ g' = Some m
  end.

(** The content of the end-to-end scenario and what one run makes of
    it. *)
Definition scenario_in : text :=
  lit "import { URI } from 'vscode-uri';" ++
  newline :: lit "foo(path.join(URI.file(p), q));".

Definition scenario_out : text :=
  lit "import { URI } from 'vscode-uri';" ++
  newline :: lit "import * as path from 'path';" ++
  newline :: lit "foo(path.join(URI.file(p).fsPath, q));".

(** The events [fix_file] can cause on one path. *)
Definition about (filepath : string) (e : event) : Prop :=
  e = EvRead filepath \/ e = EvWrite filepath \/
  e = EvPrint ("Fixed " +:+ filepath).

(** The two constructors rule 2 looks for. *)
Definition is_ctor (k : text) : Prop := k = lit "parse" \/ k = lit "file".

(** [URI.parse(x)] or [URI.file(x)] *)
Definition uri_call (k x : text) : text :=
  lit "URI." ++ k ++ lit "(" ++ x ++ lit ")".

(** [path.join(URI.parse(x),] *)
Definition join_call (k x : text) : text :=
  lit "path.join(" ++ uri_call k x ++ lit ",".

(** [path.join(URI.parse(x).fsPath,] *)
Definition join_call_fixed (k x : text) : text :=
  lit "path.join(" ++ uri_call k x ++ lit ".fsPath,".

(** [path.join(URI.parse(u], the call up to where its first closing
    parenthesis is expected. *)
Definition join_open (k u : text) : text :=
  lit "path.join(" ++ lit "URI." ++ k ++ lit "(" ++ u.

(** [URI.joinPath(args)] *)
Definition joinpath_call (args : text) : text :=
  lit "URI.joinPath(" ++ args ++ lit ")".

(** What a run can never change about a directory entry: whether it is
    a regular file, and whether that file may be read and written. *)
Definition entry_kind (e : entry) : option (bool * bool) :=
  match e with
  | File _ r wr => Some (r, wr)
  | Dir => None
  end.

(** The line [fix_file] prints for a path. *)
Definition fixed_line (filepath : string) : string := "Fixed " +:+ filepath.

(** Every [URI.joinPath(] of a text has a closing parenthesis after it
    in that text. *)
Definition joinpath_closed (a : text) : Prop :=
  forall a1 a2, a = a1 ++ lit "URI.joinPath(" ++ a2 -> rparen ∈ a2.

(** The same, decided from left to right. *)
Fixpoint joinpath_closedb (a : text) : bool :=
  match a with
  | [] => true
  | _ :: a' =>
      (negb (starts_with (lit "URI.joinPath(") a)
       || existsb (Ascii.eqb rparen) (drop 13 a))
      && joinpath_closedb a'
  end.

(** No [URI.joinPath(y)] that rule 3 can match stands as the first
    argument of a [path.join] call followed by a comma. *)
Definition joinpath_first_arg_free (s : text) : Prop :=
  forall x y z, y <> [] -> rparen ∉ y ->
    s <> x ++ lit "path.join(" ++ joinpath_call y ++ comma :: z.

(** Every URI import statement is followed by the line of the path
    import. *)
Definition path_import_follows (s : text) : Prop :=
  forall x z, s = x ++ uri_import_stmt ++ z ->
    starts_with (newline :: path_import) z = true.

(** Every [URI.joinPath(] before a path import literal of [x ++ s] that
    starts in [s] is closed before that literal; decided from left to
    right. *)
Fixpoint path_imports_closedb (x s : text) : bool :=
  match s with
  | [] => true
  | ch :: s' =>
      (negb (starts_with path_import s) || joinpath_closedb x)
      && path_imports_closedb (x ++ [ch]) s'
  end.

(** * Properties *)

(** ** Text and scanner lemmas *)

Section Text.

Implicit Types (p s a b x y : text) (c : ascii) (m : matcher).

Lemma starts_with_app p s : starts_with p (p ++ s) = true.
Proof.
  induction p as [|c p IH]; simpl; [done|].
  by rewrite Ascii.eqb_refl.
Qed.

Lemma starts_with_inv p s :
  starts_with p s = true -> exists r, s = p ++ r.
Proof.
  revert s; induction p as [|c p IH]; intros s H; simpl in *.
  - by exists s.
  - destruct s as [|d s]; [done|].
    apply andb_true_iff in H as [Hc Hp].
    apply Ascii.eqb_eq in Hc as <-.
    destruct (IH _ Hp) as [r ->]. by exists r.
Qed.

Lemma contains_head p s : starts_with p s = true -> contains p s = true.
Proof. intros H. destruct s; simpl; by rewrite H. Qed.

Lemma contains_app a p b : contains p (a ++ p ++ b) = true.
Proof.
  induction a as [|c a IH]; simpl.
  - apply contains_head, starts_with_app.
  - rewrite IH. apply orb_true_r.
Qed.

Lemma contains_inv p s :
  contains p s = true -> exists a b, s = a ++ p ++ b.
Proof.
  induction s as [|c s IH]; simpl; intros H.
  - rewrite orb_false_r in H.
    destruct (starts_with_inv _ _ H) as [r ->]. by exists [], r.
  - apply orb_true_iff in H as [H|H].
    + destruct (starts_with_inv _ _ H) as [r ->]. by exists [], r.
    + destruct (IH H) as (a & b & ->). by exists (c :: a), b.
Qed.

Lemma contains_false_app a p b : contains p (a ++ p ++ b) = false -> False.
Proof. by rewrite contains_app. Qed.

Lemma contains_false_head p s :
  contains p s = false -> starts_with p s = false.
Proof. destruct s; simpl; by intros [? _]%orb_false_iff. Qed.

Lemma contains_false_drop p a s :
  contains p (a ++ s) = false -> contains p s = false.
Proof.
  induction a as [|c a IH]; simpl; [done|].
  intros [_ ?]%orb_false_iff. auto.
Qed.

Lemma occurrences_zero p s : contains p s = false -> occurrences p s = 0.
Proof.
  induction s as [|c s IH]; simpl.
  - by intros [-> _]%orb_false_iff.
  - intros [-> ?]%orb_false_iff. simpl. auto.
Qed.

(** A text is cut at its first [c] in one way only. *)
Lemma split_first c a b a' b' :
  c ∉ a -> c ∉ a' -> a ++ c :: b = a' ++ c :: b' -> a = a' /\ b = b'.
Proof.
  revert a'; induction a as [|d a IH]; intros [|d' a'] Ha Ha' E;
    simpl in E.
  - by injection E as ->.
  - injection E as E1 E2. subst d'. exfalso. apply Ha'. left.
  - injection E as E1 E2. subst d. exfalso. apply Ha. left.
  - injection E as E1 E2. subst d'.
    apply not_elem_of_cons in Ha as [_ Ha].
    apply not_elem_of_cons in Ha' as [_ Ha'].
    destruct (IH _ Ha Ha' E2) as [-> ->]. done.
Qed.

(** Either [c] is absent, or the text is cut at its first [c]. *)
Lemma first_occurrence c s :
  c ∉ s \/ exists a b, s = a ++ c :: b /\ c ∉ a.
Proof.
  induction s as [|d s [IH|(a & b & -> & Ha)]].
  - left. apply not_elem_of_nil.
  - destruct (decide (d = c)) as [->|Hne].
    + right. exists [], s. split; [done|apply not_elem_of_nil].
    + left. by apply not_elem_of_cons.
  - right. destruct (decide (d = c)) as [->|Hne].
    + exists [], (a ++ c :: b). split; [done|apply not_elem_of_nil].
    + exists (d :: a), b. split; [done|by apply not_elem_of_cons].
Qed.

(** Skipping exactly the matched text resumes the scan after it. *)
Lemma scan_skip m x s : scan m (length x) (x ++ s) = scan m 0 s.
Proof. induction x as [|c x IH]; simpl; auto. Qed.

Lemma scan_hit m x s rep :
  x <> [] -> m (x ++ s) = Some (rep, length x) ->
  scan m 0 (x ++ s) = rep ++ scan m 0 s.
Proof.
  destruct x as [|c x]; [done|]. intros _ H.
  change (scan m 0 ((c :: x) ++ s))
    with (match m ((c :: x) ++ s) with
          | Some (rep, n) => rep ++ scan m (pred n) (x ++ s)
          | None => c :: scan m 0 (x ++ s)
          end).
  rewrite H. simpl. by rewrite scan_skip.
Qed.

Lemma scan_miss m c s :
  m (c :: s) = None -> scan m 0 (c :: s) = c :: scan m 0 s.
Proof. intros H. simpl. by rewrite H. Qed.

(** Where the matcher fails at every position the text is copied. *)
Lemma scan_id m s :
  (forall a b, s = a ++ b -> m b = None) -> scan m 0 s = s.
Proof.
  induction s as [|c s IH]; intros H; [done|].
  rewrite scan_miss by (by apply (H [])).
  f_equal. apply IH. intros a b ->. by apply (H (c :: a)).
Qed.

(** The matched text is copied up to the first match. *)
Lemma scan_copy m a s :
  (forall a1 a2, a = a1 ++ a2 -> a2 <> [] -> m (a2 ++ s) = None) ->
  scan m 0 (a ++ s) = a ++ scan m 0 s.
Proof.
  induction a as [|c a IH]; intros H; [done|].
  simpl app. rewrite scan_miss by (by apply (H [] (c :: a))).
  f_equal. apply IH. intros a1 a2 -> ?. by apply (H (c :: a1)).
Qed.

End Text.

(** ** The matcher on the two patterns *)

Section Regex.

Implicit Types (s y l rest : text) (c : ascii) (g : option text) (k : mcont).

Lemma rmatch_rlit_app l s g k : rmatch (rlit l) (l ++ s) g k = k s g.
Proof.
  induction l as [|c l IH]; simpl; [done|].
  by rewrite Ascii.eqb_refl.
Qed.

Lemma sem_rlit l m g g' : sem (rlit l) m g g' -> m = l /\ g' = g.
Proof.
  revert m g; induction l as [|c l IH]; intros m g; simpl.
  - done.
  - intros (m1 & m2 & g1 & -> & [-> ->] & H).
    by destruct (IH _ _ H) as [-> ->].
Qed.

Lemma not_plus_inv c s (k : text -> option mresult) r :
  not_plus c s k = Some r ->
  exists y s', y <> [] /\ (c ∉ y) /\ s = y ++ s' /\ k s' = Some r.
Proof.
  induction s as [|d s IH]; simpl; [done|].
  destruct (Ascii.eqb d c) eqn:E; [done|].
  apply Ascii.eqb_neq in E.
  destruct (not_plus c s k) as [r'|] eqn:E'.
  - intros [= ->]. destruct (IH eq_refl) as (y & s' & _ & Hy & -> & Hk).
    exists (d :: y), s'. split_and!; [done| |done|done].
    by apply not_elem_of_cons.
  - intros Hk. exists [d], s. split_and!; [done| |done|done].
    apply not_elem_of_cons. split; [done|apply not_elem_of_nil].
Qed.

(** [[^c]+] followed by [c]: the run stops at the first [c], and giving
    characters back never helps. *)
Lemma not_plus_close c y s (k : text -> option mresult) :
  y <> [] -> c ∉ y -> (forall d t, d <> c -> k (d :: t) = None) ->
  not_plus c (y ++ c :: s) k = k (c :: s).
Proof.
  intros Hne Hy Hk. induction y as [|d y IH]; [done|].
  apply not_elem_of_cons in Hy as [Hd Hy].
  simpl. assert (Ascii.eqb d c = false) as -> by (by apply Ascii.eqb_neq).
  destruct y as [|e y].
  - simpl. by rewrite Ascii.eqb_refl.
  - rewrite IH by done.
    destruct (k (c :: s)) eqn:E; [done|].
    simpl. apply Hk. by apply not_elem_of_cons in Hy as [? _].
Qed.

Lemma take_app_sub (x s : text) :
  take (length (x ++ s) - length s) (x ++ s) = x.
Proof.
  rewrite length_app.
  replace (length x + length s - length s) with (length x) by lia.
  by rewrite take_app_length.
Qed.

(** Whatever the backtracking matcher accepts is a match in the
    declarative sense, and the continuation ran on the text after it. *)
Lemma rmatch_sound r s g k res :
  rmatch r s g k = Some res ->
  exists m s' g', s = m ++ s' /\ sem r m g g' /\ k s' g' = Some res.
Proof.
  revert s g k; induction r as [|c|c|r1 IH1 r2 IH2|r1 IH1 r2 IH2|r1 IH1];
    intros s g k H; simpl in H.
  - by exists [], s, g.
  - destruct s as [|d s]; [done|].
    destruct (Ascii.eqb d c) eqn:E; [|done].
    apply Ascii.eqb_eq in E as ->. by exists [c], s, g.
  - apply not_plus_inv in H as (y & s' & ? & ? & -> & ?).
    by exists y, s', g.
  - apply IH1 in H as (m1 & s1 & g1 & -> & ? & H).
    apply IH2 in H as (m2 & s2 & g2 & -> & ? & ?).
    exists (m1 ++ m2), s2, g2. rewrite <- app_assoc.
    split_and!; [done| |done]. by exists m1, m2, g1.
  - destruct (rmatch r1 s g k) as [x|] eqn:E.
    + injection H as ->. apply IH1 in E as (m & s' & g' & -> & ? & ?).
      exists m, s', g'. split_and!; [done|by left|done].
    + apply IH2 in H as (m & s' & g' & -> & ? & ?).
      exists m, s', g'. split_and!; [done|by right|done].
  - apply IH1 in H as (m & s' & g' & -> & ? & H).
    rewrite take_app_sub in H.
    exists m, s', (Some m). split_and!; [done| |done].
    split; [by exists g'|done].
Qed.

Lemma re_match_sound r s rest g :
  re_match r s = Some (rest, g) ->
  exists m, s = m ++ rest /\ sem r m None g.
Proof.
  intros (m & s' & g' & -> & ? & [= -> ->])%rmatch_sound. by exists m.
Qed.

End Regex.

Section Patterns.

Implicit Types (s y rest k : text).

Lemma rmatch_seq r1 r2 s g kont :
  rmatch (RSeq r1 r2) s g kont
  = rmatch r1 s g (fun s' g' => rmatch r2 s' g' kont).
Proof. done. Qed.

Lemma rmatch_group r s g kont :
  rmatch (RGroup r) s g kont
  = rmatch r s g (fun s' _ => kont s' (Some (take (length s - length s') s))).
Proof. done. Qed.

Lemma joinpath_match_inv s rest g :
  re_match joinpath_pattern s = Some (rest, g) ->
  exists y, y <> [] /\ (rparen ∉ y) /\ s = joinpath_call y ++ rest.
Proof.
  intros (m & -> & H)%re_match_sound.
  destruct H as (m1 & m2 & g1 & -> & [-> ->]%sem_rlit & H).
  destruct H as (y & z & g2 & -> & (Hne & Hy & ->) & (-> & ->)).
  exists y. unfold joinpath_call. by rewrite <- !app_assoc.
Qed.

Lemma joinpath_match_intro y rest :
  y <> [] -> rparen ∉ y ->
  re_match joinpath_pattern (joinpath_call y ++ rest) = Some (rest, None).
Proof.
  intros Hne Hy. unfold re_match, joinpath_pattern, joinpath_call.
  rewrite <- !app_assoc, rmatch_seq, rmatch_rlit_app, rmatch_seq.
  change (lit ")" ++ rest) with (rparen :: rest).
  change (rmatch (RNotPlus ")") ?s ?g ?k)
    with (not_plus ")" s (fun s' => k s' g)).
  rewrite (not_plus_close ")"); [|done|done|].
  - simpl. done.
  - intros d t Hd. simpl. apply Ascii.eqb_neq in Hd. by rewrite Hd.
Qed.

Lemma join_match_inv s rest g :
  re_match join_pattern s = Some (rest, g) ->
  exists k y, is_ctor k /\ y <> [] /\ (rparen ∉ y) /\
    s = join_call k y ++ rest /\ g = Some (uri_call k y).
Proof.
  intros (m & -> & H)%re_match_sound.
  destruct H as (m1 & m2 & g1 & -> & [-> ->]%sem_rlit & H).
  destruct H as (m3 & m4 & g2 & -> & [[g3 H] ->] & (-> & ->)).
  destruct H as (m5 & m6 & g4 & -> & [-> ->]%sem_rlit & H).
  destruct H as (k & m7 & g5 & -> & Hk & H).
  destruct H as (m8 & m9 & g6 & -> & [-> ->] & H).
  destruct H as (y & z & g7 & -> & (Hne & Hy & ->) & (-> & ->)).
  exists k, y. split_and!; [|done|done| |].
  - destruct Hk as [[-> _]%sem_rlit|[-> _]%sem_rlit]; [by left|by right].
  - unfold join_call, uri_call. by rewrite <- !app_assoc.
  - done.
Qed.

Lemma rmatch_alt r1 r2 s g kont :
  rmatch (RAlt r1 r2) s g kont
  = match rmatch r1 s g kont with
    | Some x => Some x
    | None => rmatch r2 s g kont
    end.
Proof. done. Qed.

Lemma join_match_intro k y rest :
  is_ctor k -> y <> [] -> rparen ∉ y ->
  re_match join_pattern (join_call k y ++ rest)
  = Some (rest, Some (uri_call k y)).
Proof.
  intros Hk Hne Hy. unfold re_match, join_pattern, join_call.
  rewrite <- !app_assoc, rmatch_seq, rmatch_rlit_app, rmatch_seq, rmatch_group.
  set (s1 := uri_call k y ++ lit "," ++ rest).
  set (kont := fun (s' : text) (_ : option text) => _).
  assert (kont (lit "," ++ rest) None = Some (rest, Some (uri_call k y)))
    as Hkont.
  { unfold kont, s1. by rewrite take_app_sub. }
  unfold s1, uri_call at 1. rewrite <- !app_assoc.
  rewrite rmatch_seq, rmatch_rlit_app, rmatch_seq.
  set (kont2 := fun (s' : text) (g' : option text) => _).
  assert (kont2 (lit "(" ++ y ++ lit ")" ++ lit "," ++ rest) None
          = Some (rest, Some (uri_call k y))) as Hkont2.
  { unfold kont2. simpl.
    rewrite (not_plus_close ")"); [exact Hkont|done|done|].
    intros d t Hd. apply Ascii.eqb_neq in Hd. by rewrite Hd. }
  rewrite rmatch_alt.
  destruct Hk as [->| ->].
  - by rewrite rmatch_rlit_app, Hkont2.
  - change (rmatch (rlit (lit "parse")) (lit "file" ++ ?s) ?g ?k)
      with (@None mresult).
    by rewrite rmatch_rlit_app.
Qed.

End Patterns.

(** ** The two [re.sub] matchers *)

Section Matchers.

Implicit Types (s y x a b rest k : text).

Lemma rparen_join_open k x :
  is_ctor k -> rparen ∉ x ->
  rparen ∉ lit "path.join(" ++ lit "URI." ++ k ++ lit "(" ++ x.
Proof.
  intros Hk Hx. rewrite !not_elem_of_app.
  split_and!; [compute_done..| |compute_done|done].
  destruct Hk as [->| ->]; compute_done.
Qed.

Lemma rparen_joinpath_open x :
  rparen ∉ x -> rparen ∉ lit "URI.joinPath(" ++ x.
Proof. intros Hx. rewrite not_elem_of_app. split; [compute_done|done]. Qed.

Lemma join_call_split k x :
  join_call k x
  = (lit "path.join(" ++ lit "URI." ++ k ++ lit "(" ++ x) ++ rparen :: [comma].
Proof. unfold join_call, uri_call. by rewrite <- !app_assoc. Qed.

Lemma join_call_fixed_split k x :
  join_call_fixed k x
  = (lit "path.join(" ++ lit "URI." ++ k ++ lit "(" ++ x) ++ lit ").fsPath,".
Proof. unfold join_call_fixed, uri_call. by rewrite <- !app_assoc. Qed.

Lemma joinpath_call_split x :
  joinpath_call x = (lit "URI.joinPath(" ++ x) ++ [rparen].
Proof. unfold joinpath_call. by rewrite <- !app_assoc. Qed.

Lemma sub_join_hit k y rest :
  is_ctor k -> y <> [] -> rparen ∉ y ->
  sub_matcher join_pattern join_repl (join_call k y ++ rest)
  = Some (join_call_fixed k y, length (join_call k y)).
Proof.
  intros Hk Hne Hy. unfold sub_matcher.
  rewrite join_match_intro by done.
  by rewrite length_app, Nat.add_sub.
Qed.

Lemma sub_join_inv s rep n :
  sub_matcher join_pattern join_repl s = Some (rep, n) ->
  exists k y rest, is_ctor k /\ y <> [] /\ (rparen ∉ y) /\
    s = join_call k y ++ rest /\
    rep = join_call_fixed k y /\ n = length (join_call k y).
Proof.
  unfold sub_matcher. destruct (re_match join_pattern s) as [[rest g]|] eqn:E;
    [|done].
  intros [= <- <-].
  apply join_match_inv in E as (k & y & ? & ? & ? & -> & ->).
  exists k, y, rest. split_and!; try done.
  by rewrite length_app, Nat.add_sub.
Qed.

Lemma sub_joinpath_hit y rest :
  y <> [] -> rparen ∉ y ->
  sub_matcher joinpath_pattern joinpath_repl (joinpath_call y ++ rest)
  = Some (fixme, length (joinpath_call y)).
Proof.
  intros Hne Hy. unfold sub_matcher.
  rewrite joinpath_match_intro by done.
  by rewrite length_app, Nat.add_sub.
Qed.

Lemma sub_joinpath_inv s rep n :
  sub_matcher joinpath_pattern joinpath_repl s = Some (rep, n) ->
  exists y rest, y <> [] /\ (rparen ∉ y) /\
    s = joinpath_call y ++ rest /\
    rep = fixme /\ n = length (joinpath_call y).
Proof.
  unfold sub_matcher.
  destruct (re_match joinpath_pattern s) as [[rest g]|] eqn:E; [|done].
  intros [= <- <-].
  apply joinpath_match_inv in E as (y & ? & ? & ->).
  exists y, rest. split_and!; try done.
  by rewrite length_app, Nat.add_sub.
Qed.

Lemma rule2_hit k y rest :
  is_ctor k -> y <> [] -> rparen ∉ y ->
  rule2 (join_call k y ++ rest) = join_call_fixed k y ++ rule2 rest.
Proof.
  intros. unfold rule2, re_sub. apply scan_hit; [done|]. by apply sub_join_hit.
Qed.

Lemma rule3_hit y rest :
  y <> [] -> rparen ∉ y ->
  rule3 (joinpath_call y ++ rest) = fixme ++ rule3 rest.
Proof.
  intros. unfold rule3, re_sub. apply scan_hit; [done|].
  by apply sub_joinpath_hit.
Qed.

End Matchers.

(** ** Rules 2 and 3 on every occurrence *)

Section Occurrences.

Implicit Types (s y x a b rest k args : text).

Lemma length_cut (a a1 a2 : text) (c : ascii) :
  a = a1 ++ c :: a2 -> length a2 < length a.
Proof. intros ->. rewrite length_app. simpl. lia. Qed.

Lemma app_cons_assoc (a1 a2 s : text) (c : ascii) :
  (a1 ++ c :: a2) ++ s = a1 ++ c :: (a2 ++ s).
Proof. by rewrite <- app_assoc. Qed.

Lemma rule2_miss c s :
  sub_matcher join_pattern join_repl (c :: s) = None ->
  rule2 (c :: s) = c :: rule2 s.
Proof. apply scan_miss. Qed.

Lemma rule3_miss c s :
  sub_matcher joinpath_pattern joinpath_repl (c :: s) = None ->
  rule3 (c :: s) = c :: rule3 s.
Proof. apply scan_miss. Qed.

(** How a match of rule 3 that starts at or before an occurrence of
    [URI.joinPath(args)] lies: it ends at the closing parenthesis of the
    occurrence, or before the occurrence starts. *)
Lemma joinpath_match_position a args b y rest :
  rparen ∉ args -> rparen ∉ y ->
  a ++ joinpath_call args ++ b = joinpath_call y ++ rest ->
  (a ++ joinpath_call args = joinpath_call y /\ rest = b) \/
  (exists a2,
     a = joinpath_call y ++ a2 /\ rest = a2 ++ joinpath_call args ++ b).
Proof.
  intros Hargs Hy Heq. rewrite !joinpath_call_split in *.
  destruct (first_occurrence rparen a) as [Ha|(a1 & a2 & -> & Ha1)].
  - left. rewrite app_cons_assoc, (app_assoc a), <- (app_assoc _ [rparen] rest)
      in Heq.
    apply split_first in Heq as [Hpre Hrest].
    + split; [|done]. by rewrite (app_assoc a), Hpre.
    + apply not_elem_of_app. split; [done|by apply rparen_joinpath_open].
    + by apply rparen_joinpath_open.
  - right. exists a2.
    rewrite app_cons_assoc, <- (app_assoc _ [rparen] rest) in Heq.
    apply split_first in Heq as [-> <-];
      [|done|by apply rparen_joinpath_open].
    split; [|done]. by rewrite app_cons_assoc.
Qed.

(** An occurrence of [URI.joinPath(args)] anywhere in the content ends up
    as the placeholder: either the scanner matches it where it starts, or
    an earlier [URI.joinPath(] with no closing parenthesis of its own
    swallows it, and that match ends at the same parenthesis.  What comes
    out before the placeholder does not depend on the text after the
    occurrence. *)
Lemma rule3_occurrence a args :
  args <> [] -> rparen ∉ args ->
  exists a', forall b,
    rule3 (a ++ joinpath_call args ++ b) = a' ++ fixme ++ rule3 b.
Proof.
  intros Hne Hargs.
  induction a as [a IH] using (induction_ltof1 _ (@length ascii)).
  unfold ltof in IH.
  destruct a as [|c a0].
  { exists []. intros b. by apply rule3_hit. }
  destruct (sub_matcher joinpath_pattern joinpath_repl
              ((c :: a0) ++ joinpath_call args)) as [[rep n]|] eqn:E.
  - apply sub_joinpath_inv in E as (y & rest & Hy1 & Hy2 & Heq & _ & _).
    rewrite <- (app_nil_r (joinpath_call args)) in Heq.
    apply joinpath_match_position in Heq
      as [[Heq _]|(a2 & Ha & _)]; [| |done|done].
    + exists []. intros b. by rewrite app_assoc, Heq, rule3_hit.
    + destruct (IH a2) as [a' Ha'].
      { rewrite Ha, length_app. unfold joinpath_call.
        rewrite length_app. simpl. lia. }
      exists (fixme ++ a'). intros b.
      by rewrite Ha, <- !app_assoc, rule3_hit, Ha'.
  - destruct (IH a0) as [a' Ha']; [simpl; lia|].
    exists (c :: a'). intros b.
    change ((c :: a0) ++ ?s) with (c :: (a0 ++ s)).
    rewrite rule3_miss, Ha'; [done|].
    destruct (sub_matcher joinpath_pattern joinpath_repl
                (c :: a0 ++ joinpath_call args ++ b))
      as [[rep n]|] eqn:E'; [|done].
    apply sub_joinpath_inv in E' as (y & rest & Hy1 & Hy2 & Heq & _ & _).
    change (c :: a0 ++ ?s) with ((c :: a0) ++ s) in Heq.
    apply joinpath_match_position in Heq
      as [[Heq _]|(a2 & Ha & _)]; [| |done|done].
    + rewrite Heq, <- (app_nil_r (joinpath_call y)) in E.
      by rewrite sub_joinpath_hit in E.
    + rewrite Ha, <- app_assoc in E. by rewrite sub_joinpath_hit in E.
Qed.

(** The same for a match of rule 2 and an occurrence of
    [path.join(URI.parse(x),]. *)
Lemma join_match_position a k x b k' y rest :
  is_ctor k -> rparen ∉ x -> is_ctor k' -> rparen ∉ y ->
  a ++ join_call k x ++ b = join_call k' y ++ rest ->
  (a ++ join_call_fixed k x = join_call_fixed k' y /\ rest = b) \/
  (exists a2, a = join_call k' y ++ a2 /\ rest = a2 ++ join_call k x ++ b).
Proof.
  intros Hk Hx Hk' Hy Heq. rewrite !join_call_split in *.
  destruct (first_occurrence rparen a) as [Ha|(a1 & a2 & -> & Ha1)].
  - left. rewrite app_cons_assoc, (app_assoc a), app_cons_assoc in Heq.
    apply split_first in Heq as [Hpre Hrest].
    + injection Hrest as <-. split; [|done].
      rewrite !join_call_fixed_split, <- Hpre. by rewrite <- !app_assoc.
    + apply not_elem_of_app. split; [done|by apply rparen_join_open].
    + by apply rparen_join_open.
  - right. rewrite !app_cons_assoc in Heq.
    apply split_first in Heq as [-> Hrest];
      [|done|by apply rparen_join_open].
    destruct a2 as [|d a3]; [done|].
    injection Hrest as -> Hrest. exists a3.
    split; [by rewrite app_cons_assoc|].
    rewrite <- Hrest. by rewrite <- !app_assoc.
Qed.

Lemma join_call_fixed_inj k x k' y a :
  a ++ join_call_fixed k x = join_call_fixed k' y ->
  a ++ join_call k x = join_call k' y.
Proof.
  rewrite !join_call_fixed_split, !join_call_split, !app_assoc.
  intros H. apply app_inv_tail in H. by rewrite H.
Qed.

(** An occurrence of [path.join(URI.parse(x),] gets its [.fsPath],
    matched where it starts or as the tail of an earlier match that ends
    at the same [),]. *)
Lemma rule2_occurrence a k x :
  is_ctor k -> x <> [] -> rparen ∉ x ->
  exists a', forall b,
    rule2 (a ++ join_call k x ++ b) = a' ++ join_call_fixed k x ++ rule2 b.
Proof.
  intros Hk Hne Hx.
  induction a as [a IH] using (induction_ltof1 _ (@length ascii)).
  unfold ltof in IH.
  destruct a as [|c a0].
  { exists []. intros b. by apply rule2_hit. }
  destruct (sub_matcher join_pattern join_repl
              ((c :: a0) ++ join_call k x)) as [[rep n]|] eqn:E.
  - apply sub_join_inv in E as (k' & y & rest & Hk' & Hy1 & Hy2 & Heq & _ & _).
    rewrite <- (app_nil_r (join_call k x)) in Heq.
    apply join_match_position in Heq
      as [[Heq _]|(a2 & Ha & _)]; [| |done..].
    + exists (c :: a0). intros b.
      rewrite app_assoc, (join_call_fixed_inj _ _ _ _ _ Heq), rule2_hit by done.
      by rewrite <- Heq, <- app_assoc.
    + destruct (IH a2) as [a' Ha'].
      { rewrite Ha, length_app. unfold join_call.
        rewrite length_app. simpl. lia. }
      exists (join_call_fixed k' y ++ a'). intros b.
      by rewrite Ha, <- !app_assoc, rule2_hit, Ha'.
  - destruct (IH a0) as [a' Ha']; [simpl; lia|].
    exists (c :: a'). intros b.
    change ((c :: a0) ++ ?s) with (c :: (a0 ++ s)).
    rewrite rule2_miss, Ha'; [done|].
    destruct (sub_matcher join_pattern join_repl
                (c :: a0 ++ join_call k x ++ b))
      as [[rep n]|] eqn:E'; [|done].
    apply sub_join_inv in E' as (k' & y & rest & Hk' & Hy1 & Hy2 & Heq & _ & _).
    change (c :: a0 ++ ?s) with ((c :: a0) ++ s) in Heq.
    apply join_match_position in Heq
      as [[Heq _]|(a2 & Ha & _)]; [| |done..].
    + rewrite (join_call_fixed_inj _ _ _ _ _ Heq),
        <- (app_nil_r (join_call k' y)) in E.
      by rewrite sub_join_hit in E.
    + rewrite Ha, <- app_assoc in E. by rewrite sub_join_hit in E.
Qed.


(** No match of rule 2 ends at a closing parenthesis that is not followed
    by a comma. *)
Lemma sub_join_no_comma t v :
  rparen ∉ t -> starts_with [comma] v = false ->
  sub_matcher join_pattern join_repl (t ++ rparen :: v) = None.
Proof.
  intros Ht Hv.
  destruct (sub_matcher _ _ _) as [[rep n]|] eqn:E; [|done].
  apply sub_join_inv in E as (k' & y & rest & Hk' & Hy1 & Hy2 & Heq & _ & _).
  rewrite join_call_split, app_cons_assoc in Heq.
  apply split_first in Heq as [_ ->]; [|done|by apply rparen_join_open].
  done.
Qed.

Lemma suffix_snoc (o t1 t2 : text) (c : ascii) :
  o ++ [c] = t1 ++ t2 -> t2 <> [] ->
  exists t2', t2 = t2' ++ [c] /\ o = t1 ++ t2'.
Proof.
  intros E Hne. destruct t2 as [|d t2' _] using rev_ind; [done|].
  rewrite app_assoc in E. apply app_inj_tail in E as [-> ->]. by exists t2'.
Qed.

Lemma rule2_copy_unclosed t v :
  rparen ∉ t -> starts_with [comma] v = false ->
  rule2 (t ++ rparen :: v) = t ++ rparen :: rule2 v.
Proof.
  intros Ht Hv.
  replace (t ++ rparen :: v) with ((t ++ [rparen]) ++ v)
    by (by rewrite <- app_assoc).
  unfold rule2, re_sub. rewrite scan_copy; [by rewrite <- app_assoc|].
  intros t1 t2 E Hne.
  apply suffix_snoc in E as (t2' & -> & ->); [|done].
  rewrite <- app_assoc. apply sub_join_no_comma; [|done].
  by apply not_elem_of_app in Ht as [_ ?].
Qed.

(** A call whose first closing parenthesis is not followed by a comma is
    copied as it stands, and the text around it is rewritten as if the
    call were not there. *)
Lemma rule2_nested a t v :
  rparen ∉ t -> t <> [] -> starts_with (lit "path.join(") t = true ->
  starts_with [comma] v = false ->
  rule2 (a ++ t ++ rparen :: v) = rule2 a ++ t ++ rparen :: rule2 v.
Proof.
  intros Ht Hne Hp Hv.
  induction a as [a IH] using (induction_ltof1 _ (@length ascii)).
  unfold ltof in IH.
  destruct a as [|c a0].
  { by apply rule2_copy_unclosed. }
  destruct (sub_matcher join_pattern join_repl
              ((c :: a0) ++ t ++ rparen :: v)) as [[rep n]|] eqn:E.
  - destruct (sub_join_inv _ _ _ E)
      as (k' & y & rest & Hk' & Hy1 & Hy2 & Heq & _ & _).
    destruct (first_occurrence rparen (c :: a0)) as [Ha|(a1 & a2 & Ea & Ha1)].
    + exfalso. rewrite app_assoc, sub_join_no_comma in E; try done.
      by apply not_elem_of_app.
    + pose proof Heq as Heq'.
      rewrite Ea, join_call_split, !app_cons_assoc in Heq'.
      apply split_first in Heq' as [Ha1' Hrest];
        [|done|by apply rparen_join_open].
      destruct a2 as [|d a3].
      { exfalso. apply starts_with_inv in Hp as [r ->].
        simpl in Hrest. discriminate. }
      injection Hrest as -> Hrest.
      assert (c :: a0 = join_call k' y ++ a3) as Ea'.
      { rewrite Ea, Ha1', join_call_split. by rewrite app_cons_assoc. }
      rewrite Heq, Ea', !rule2_hit by done.
      rewrite <- Hrest, IH, <- app_assoc; [done|].
      apply length_cut in Ea. simpl in *. lia.
  - change ((c :: a0) ++ ?s) with (c :: (a0 ++ s)) in *.
    rewrite rule2_miss by done.
    rewrite IH by (simpl; lia).
    rewrite rule2_miss; [done|].
    destruct (sub_matcher join_pattern join_repl (c :: a0))
      as [[rep n]|] eqn:E'; [|done].
    apply sub_join_inv in E' as (k' & y & rest & ? & ? & ? & Heq & _ & _).
    change (c :: a0 ++ ?s) with ((c :: a0) ++ s) in E.
    rewrite Heq, <- app_assoc, sub_join_hit in E; done.
Qed.

End Occurrences.

(** ** Rule 3 finds nothing in its own output *)

Section Rule3Idempotent.

Implicit Types (s y x a b w r rest : text).

Lemma fixme_split : fixme = fixme_body ++ [rparen].
Proof. done. Qed.

Lemma rparen_fixme_body : rparen ∉ fixme_body.
Proof. compute_done. Qed.

(** No match starts inside the placeholder. *)
Lemma fixme_suffix_no_match t l x :
  fixme = t ++ l -> l <> [] ->
  sub_matcher joinpath_pattern joinpath_repl (l ++ x) = None.
Proof.
  intros E Hne.
  destruct (sub_matcher joinpath_pattern joinpath_repl (l ++ x))
    as [[rep n]|] eqn:Em; [|done].
  apply sub_joinpath_inv in Em as (y & rest & _ & _ & Heq & _ & _).
  exfalso. unfold joinpath_call in Heq. vm_compute in E.
  repeat (destruct t as [|? t];
          [simpl in E; subst l; simpl in Heq; discriminate
          |simpl in E; injection E as ? E]).
  destruct t; [simpl in E; by subst l|discriminate].
Qed.

(** The only [U] of [URI.joinPath(] is its first character. *)
Lemma joinpath_open_inner_U (p q : text) :
  lit "URI.joinPath(" = p ++ "U" :: q -> p = [].
Proof.
  intros E. vm_compute in E.
  destruct p as [|? p]; [done|]. exfalso.
  simpl in E; injection E as ? E.
  repeat (destruct p as [|? p];
          [simpl in E; discriminate|simpl in E; injection E as ? E]).
  destruct p; discriminate.
Qed.

(** The output of rule 3 up to its first closing parenthesis is either
    copied from the input, or ends with the placeholder that stands for a
    call of the input. *)
Lemma rule3_prefix s w r :
  rule3 s = w ++ rparen :: r -> rparen ∉ w ->
  (exists r0, s = w ++ rparen :: r0) \/
  (exists w0 y0 r0, w = w0 ++ fixme_body /\ s = w0 ++ joinpath_call y0 ++ r0 /\
     y0 <> [] /\ (rparen ∉ y0)).
Proof.
  revert w; induction s as [|d s1 IH]; intros w H Hw.
  { by destruct w. }
  destruct (sub_matcher joinpath_pattern joinpath_repl (d :: s1))
    as [[rep n]|] eqn:E.
  - apply sub_joinpath_inv in E as (y0 & r0 & ? & ? & Heq & _ & _).
    rewrite Heq, rule3_hit, fixme_split, app_cons_assoc in H by done.
    apply split_first in H as [<- _]; [|apply rparen_fixme_body|done].
    right. exists [], y0, r0. by rewrite Heq.
  - rewrite rule3_miss in H by done.
    destruct w as [|d' w1]; simpl in H; injection H as -> H.
    { left. by exists s1. }
    apply not_elem_of_cons in Hw as [_ Hw].
    destruct (IH _ H Hw) as [[r0 ->]|(w0 & y0 & r0 & -> & -> & ? & ?)].
    + left. by exists r0.
    + right. by exists (d' :: w0), y0, r0.
Qed.

Lemma rule3_no_match s t1 t2 :
  rule3 s = t1 ++ t2 ->
  sub_matcher joinpath_pattern joinpath_repl t2 = None.
Proof.
  revert t1 t2.
  induction s as [s IH] using (induction_ltof1 _ (@length ascii)).
  unfold ltof in IH. intros t1 t2 H.
  destruct s as [|c s0].
  { destruct t1, t2; done. }
  destruct (sub_matcher joinpath_pattern joinpath_repl (c :: s0))
    as [[rep n]|] eqn:E.
  - apply sub_joinpath_inv in E as (y & rest & ? & ? & Heq & _ & _).
    assert (length rest < length (c :: s0)) as Hlen.
    { rewrite Heq, length_app. unfold joinpath_call.
      rewrite length_app. simpl. lia. }
    rewrite Heq, rule3_hit in H by done.
    apply app_eq_app in H as [l [[Hf Ht]|[Hf Ht]]].
    + destruct l as [|e l].
      * simpl in Ht. apply (IH rest Hlen [] t2). by rewrite Ht.
      * rewrite Ht. by apply (fixme_suffix_no_match t1).
    + by apply (IH rest Hlen l t2).
  - rewrite rule3_miss in H by done.
    destruct t1 as [|c' t1]; simpl in H.
    2:{ injection H as -> H. apply (IH s0) in H; [done|simpl; lia]. }
    subst t2.
    destruct (sub_matcher joinpath_pattern joinpath_repl (c :: rule3 s0))
      as [[rep n]|] eqn:E'; [|done].
    exfalso.
    apply sub_joinpath_inv in E' as (y & rest & Hy1 & Hy2 & Heq & _ & _).
    rewrite joinpath_call_split, app_cons_assoc in Heq.
    change ((lit "URI.joinPath(" ++ y) ++ rparen :: rest)
      with ("U" :: (lit "RI.joinPath(" ++ y) ++ rparen :: rest) in Heq.
    injection Heq as -> Heq.
    assert (rparen ∉ lit "RI.joinPath(" ++ y) as Hw.
    { apply not_elem_of_app. split; [compute_done|done]. }
    apply (rule3_prefix s0 (lit "RI.joinPath(" ++ y) rest) in Heq
      as [[r0 ->]|(w0 & y0 & r0 & Hw0 & -> & ? & ?)]; [| |done].
    + replace ("U" :: (lit "RI.joinPath(" ++ y) ++ rparen :: r0)
        with (joinpath_call y ++ r0) in E
        by (unfold joinpath_call; by rewrite <- !app_assoc).
      by rewrite sub_joinpath_hit in E.
    + assert (rparen ∉ w0) as Hw0'.
      { rewrite Hw0 in Hw. by apply not_elem_of_app in Hw as [? _]. }
      assert (lit "URI.joinPath(" ++ y = ("U" :: w0) ++ fixme_body) as Hsplit.
      { simpl. f_equal. exact Hw0. }
      apply app_eq_app in Hsplit as [l [[HJ Hfb]|[HJ Hy]]].
      * destruct l as [|e l].
        -- rewrite app_nil_r in HJ.
           change ("U" :: w0 ++ ?s) with (("U" :: w0) ++ s) in E.
           rewrite <- HJ in E.
           change (lit "URI.joinPath(" ++ joinpath_call y0 ++ r0)
             with (lit "URI.joinPath(" ++
                   (lit "URI.joinPath(" ++ y0 ++ lit ")") ++ r0) in E.
           replace (lit "URI.joinPath(" ++
                    (lit "URI.joinPath(" ++ y0 ++ lit ")") ++ r0)
             with (joinpath_call (lit "URI.joinPath(" ++ y0) ++ r0) in E
             by (unfold joinpath_call; by rewrite <- !app_assoc).
           rewrite sub_joinpath_hit in E; [done|done|].
           by apply rparen_joinpath_open.
        -- assert (e = "U") as ->.
           { destruct y; simpl in Hfb; by injection Hfb. }
           by apply joinpath_open_inner_U in HJ.
      * change ("U" :: w0 ++ ?s) with (("U" :: w0) ++ s) in E.
        rewrite HJ in E.
        replace ((lit "URI.joinPath(" ++ l) ++ joinpath_call y0 ++ r0)
          with (joinpath_call (l ++ lit "URI.joinPath(" ++ y0) ++ r0) in E
          by (unfold joinpath_call; by rewrite <- !app_assoc).
        rewrite sub_joinpath_hit in E; [done|by destruct l|].
        apply not_elem_of_app. split; [|by apply rparen_joinpath_open].
        assert (rparen ∉ "U" :: w0) as Hw1 by (by apply not_elem_of_cons).
        rewrite HJ in Hw1. by apply not_elem_of_app in Hw1 as [_ ?].
Qed.

Lemma rule3_idempotent s : rule3 (rule3 s) = rule3 s.
Proof.
  unfold rule3 at 1. unfold re_sub. apply scan_id.
  intros a b H. by apply (rule3_no_match s a b).
Qed.

End Rule3Idempotent.

(** ** Rule 1 and the import literals *)

Section Rule1.

Implicit Types (p s a b : text).

Lemma contains_false_suffix p s a b :
  contains p s = false -> s = a ++ b -> starts_with p b = false.
Proof.
  intros H ->. by apply contains_false_head, (contains_false_drop _ a).
Qed.

Lemma str_replace_absent old new s :
  contains old s = false -> str_replace old new s = s.
Proof.
  intros H. apply scan_id. intros a b E. unfold replace_matcher.
  by rewrite (contains_false_suffix _ _ _ _ H E).
Qed.

Lemma occurrences_zero_inv p s : occurrences p s = 0 -> contains p s = false.
Proof.
  induction s as [|c s IH]; simpl.
  - destruct (starts_with p []); [done|by rewrite orb_false_r].
  - destruct (starts_with p (c :: s)); [done|]. simpl. exact IH.
Qed.

Lemma occurrences_app_ge p a s : occurrences p s <= occurrences p (a ++ s).
Proof. induction a as [|c a IH]; simpl; lia. Qed.

Lemma occurrences_cons p c s :
  occurrences p (c :: s)
  = (if starts_with p (c :: s) then 1 else 0) + occurrences p s.
Proof. done. Qed.

(** Where [p] starts at no position of [a], counting skips [a]. *)
Lemma occurrences_app_none p a s :
  (forall a1 a2, a = a1 ++ a2 -> a2 <> [] -> starts_with p (a2 ++ s) = false) ->
  occurrences p (a ++ s) = occurrences p s.
Proof.
  induction a as [|c a IH]; intros H; [done|].
  pose proof (H [] (c :: a) eq_refl) as H0.
  simpl app in *. rewrite occurrences_cons, H0 by done. simpl.
  apply IH. intros a1 a2 -> ?. by apply (H (c :: a1)).
Qed.

Lemma occurrences_app_hit p a1 a2 s :
  a2 <> [] -> starts_with p (a2 ++ s) = true ->
  1 + occurrences p s <= occurrences p (a1 ++ a2 ++ s).
Proof.
  intros Hne H. etrans; [|apply occurrences_app_ge].
  destruct a2 as [|c a2]; [done|].
  simpl app in *. rewrite occurrences_cons, H.
  pose proof (occurrences_app_ge p a2 s). lia.
Qed.

Lemma occurrences_hit_head h p s :
  occurrences (h :: p) ((h :: p) ++ s) = 1 + occurrences (h :: p) (p ++ s).
Proof.
  pose proof (starts_with_app (h :: p) s) as H.
  simpl app in *. by rewrite occurrences_cons, H.
Qed.

(** No occurrence of [h :: p] starts at a character other than [h]. *)
Lemma starts_with_other_head h p a a1 a2 s :
  h ∉ a -> a = a1 ++ a2 -> a2 <> [] -> starts_with (h :: p) (a2 ++ s) = false.
Proof.
  intros Hh -> Hne. destruct a2 as [|c a2]; [done|]. simpl.
  apply not_elem_of_app in Hh as [_ Hh].
  apply not_elem_of_cons in Hh as [Hh _].
  assert (Ascii.eqb h c = false) as -> by (by apply Ascii.eqb_neq). done.
Qed.

Lemma uri_import_stmt_split : uri_import_stmt = uri_import ++ lit ";".
Proof. done. Qed.

Lemma uri_path_import_stmt_split :
  uri_path_import_stmt
  = uri_import_stmt ++ newline :: path_import ++ lit ";".
Proof. done. Qed.

Lemma contains_uri_import a b :
  contains uri_import (a ++ uri_import_stmt ++ b) = true.
Proof.
  rewrite uri_import_stmt_split, <- app_assoc. apply contains_app.
Qed.

(** With the statement absent, rule 1 changes nothing, whatever its guard
    says. *)
Lemma rule1_no_stmt s : contains uri_import_stmt s = false -> rule1 s = s.
Proof.
  intros H. unfold rule1. destruct (rule1_guard s); [|done].
  by apply str_replace_absent.
Qed.

Lemma rule1_guard_false s : rule1_guard s = false -> rule1 s = s.
Proof. intros H. unfold rule1. by rewrite H. Qed.

(** A single statement is replaced where it stands. *)
Lemma str_replace_single a b :
  occurrences uri_import_stmt (a ++ uri_import_stmt ++ b) = 1 ->
  str_replace uri_import_stmt uri_path_import_stmt (a ++ uri_import_stmt ++ b)
  = a ++ uri_path_import_stmt ++ b.
Proof.
  intros H.
  assert (1 + occurrences uri_import_stmt b
          <= occurrences uri_import_stmt (uri_import_stmt ++ b)) as Hb.
  { apply (occurrences_app_hit _ []); [done|apply starts_with_app]. }
  pose proof (occurrences_app_ge uri_import_stmt a (uri_import_stmt ++ b))
    as Ha.
  unfold str_replace. rewrite scan_copy.
  - f_equal. rewrite (scan_hit _ _ _ uri_path_import_stmt); [|done|].
    + f_equal. apply str_replace_absent, occurrences_zero_inv. lia.
    + unfold replace_matcher. by rewrite starts_with_app.
  - intros a1 a2 -> Hne. unfold replace_matcher.
    destruct (starts_with _ _) eqn:E; [|done]. exfalso.
    pose proof (occurrences_app_hit _ a1 a2 _ Hne E) as Hhit.
    rewrite <- app_assoc in H. lia.
Qed.

(** After the insertion the path import literal stands once. *)
Lemma occurrences_path_import a b :
  contains path_import (a ++ uri_import_stmt ++ b) = false ->
  occurrences path_import (a ++ uri_path_import_stmt ++ b) = 1.
Proof.
  intros H.
  rewrite uri_path_import_stmt_split.
  replace (a ++ (uri_import_stmt ++ newline :: path_import ++ lit ";") ++ b)
    with (((a ++ uri_import_stmt) ++ [newline]) ++
          path_import ++ (lit ";" ++ b))
    by (by rewrite <- !app_assoc).
  rewrite occurrences_app_none.
  - change path_import with ("i" :: lit "mport * as path from 'path'").
    rewrite occurrences_hit_head.
    rewrite (app_assoc _ (lit ";")), occurrences_app_none.
    + rewrite occurrences_zero; [done|].
      rewrite app_assoc in H. by apply contains_false_drop in H.
    + intros a1 a2 E Hne.
      by apply (starts_with_other_head "i" _
                  (lit "mport * as path from 'path'" ++ lit ";") a1 a2 b);
        [compute_done| |].
  - intros t1 t2 E Hne.
    apply suffix_snoc in E as (t2' & -> & E); [|done].
    destruct (starts_with _ _) eqn:Es; [|done]. exfalso.
    apply starts_with_inv in Es as [r Er].
    rewrite app_cons_assoc in Er. 
    apply app_eq_app in Er as [l [[Ht Hr]|[Hp Hr]]].
    + rewrite app_assoc, E, Ht in H.
      rewrite <- !app_assoc in H. by apply contains_false_app in H.
    + destruct l as [|e l].
      * rewrite app_nil_r in Hp. rewrite app_assoc, E, <- Hp in H.
        rewrite <- !app_assoc in H. by apply contains_false_app in H.
      * simpl in Hr. injection Hr as <- _.
        assert (newline ∈ path_import) as Hin.
        { rewrite Hp. apply elem_of_app. right. left. }
        revert Hin. compute_done.
Qed.

End Rule1.

(** ** Where a pattern matches nowhere *)

Section Search.

Lemma re_search_false r (a b : text) :
  re_search r (a ++ b) = false -> re_match r b = None.
Proof.
  induction a as [|c a IH]; simpl.
  - destruct b; simpl; by destruct (re_match r _).
  - destruct (re_match r (c :: a ++ b)); [done|]. exact IH.
Qed.

Lemma re_sub_no_match r repl (s : text) :
  re_search r s = false -> re_sub r repl s = s.
Proof.
  intros H. apply scan_id. intros a b ->. unfold sub_matcher.
  by rewrite (re_search_false _ _ _ H).
Qed.

End Search.

(** ** [fix_file] and the loop *)

Section Driver.

Implicit Types (w : world) (p filepath : string) (c : text).

Lemma fix_file_unchanged w p c wr :
  files w !! p = Some (File c true wr) -> transform c = c ->
  fix_file p w = (log (EvRead p) w, Ok tt).
Proof.
  intros Hf Hc. unfold fix_file, io_bind, read_file. rewrite Hf.
  fold (transform c). rewrite Hc.
  by rewrite bool_decide_eq_false_2 by (by intros []).
Qed.

Lemma fix_file_changed w p c :
  files w !! p = Some (File c true true) -> transform c <> c ->
  fix_file p w
  = (World (<[p := File (transform c) true true]> (files w))
       (trace w ++ [EvRead p; EvWrite p; EvPrint ("Fixed " +:+ p)]),
     Ok tt).
Proof.
  intros Hf Hc. unfold fix_file, io_bind, read_file. rewrite Hf.
  fold (transform c). rewrite bool_decide_eq_true_2 by done.
  unfold write_file, print, log. simpl. rewrite Hf. simpl.
  by rewrite <- !app_assoc.
Qed.

Lemma fix_file_denied w p c :
  files w !! p = Some (File c true false) -> transform c <> c ->
  fix_file p w = (log (EvRead p) w, Raise (WriteError p)).
Proof.
  intros Hf Hc. unfold fix_file, io_bind, read_file. rewrite Hf.
  fold (transform c). rewrite bool_decide_eq_true_2 by done.
  unfold write_file, log. simpl. by rewrite Hf.
Qed.

Lemma fix_file_unreadable w p c wr :
  files w !! p = Some (File c false wr) ->
  fix_file p w = (w, Raise (ReadError p)).
Proof.
  intros Hf. unfold fix_file, io_bind, read_file. by rewrite Hf.
Qed.

Lemma visit_file w p c r wr :
  files w !! p = Some (File c r wr) -> visit p w = fix_file p w.
Proof. intros Hf. unfold visit, io_bind, isfile. by rewrite Hf. Qed.

Lemma visit_skip w p :
  (forall c r wr, files w !! p <> Some (File c r wr)) ->
  visit p w = (w, Ok tt).
Proof.
  intros Hf. unfold visit, io_bind, isfile.
  destruct (files w !! p) as [[c r wr|]|] eqn:E; [|done..].
  by destruct (Hf c r wr).
Qed.

(** What one visit can do: nothing, a read, a read and a failed write, a
    failed read, or read, write and report. *)
Lemma visit_cases w p :
  visit p w = (w, Ok tt) \/
  visit p w = (log (EvRead p) w, Ok tt) \/
  visit p w = (w, Raise (ReadError p)) \/
  visit p w = (log (EvRead p) w, Raise (WriteError p)) \/
  exists c,
    visit p w
    = (World (<[p := File c true true]> (files w))
         (trace w ++ [EvRead p; EvWrite p; EvPrint ("Fixed " +:+ p)]),
       Ok tt).
Proof.
  destruct (files w !! p) as [[c r wr|]|] eqn:E.
  - rewrite (visit_file _ _ _ _ _ E). destruct r.
    + destruct (decide (transform c = c)) as [Hc|Hc].
      * right; left. by eapply fix_file_unchanged.
      * destruct wr.
        -- do 4 right. exists (transform c). by apply fix_file_changed.
        -- do 3 right; left. by eapply fix_file_denied.
    + right; right; left. by eapply fix_file_unreadable.
  - left. apply visit_skip. intros ???. by rewrite E.
  - left. apply visit_skip. intros ???. by rewrite E.
Qed.

Lemma visit_ok_trace w p w' :
  visit p w = (w', Ok tt) ->
  exists evs, trace w' = trace w ++ evs /\ Forall (about p) evs.
Proof.
  intros H.
  destruct (visit_cases w p) as [E|[E|[E|[E|[c E]]]]];
    rewrite E in H; simplify_eq.
  - exists []. by rewrite app_nil_r.
  - exists [EvRead p]. split; [done|].
    constructor; [by left|constructor].
  - exists [EvRead p; EvWrite p; EvPrint ("Fixed " +:+ p)]. split; [done|].
    repeat (constructor; [unfold about; auto|]). constructor.
Qed.

Lemma visit_raise w p w' e :
  visit p w = (w', Raise e) ->
  files w' = files w /\
  (trace w' = trace w \/ trace w' = trace w ++ [EvRead p]) /\
  (e = ReadError p \/ e = WriteError p).
Proof.
  intros H.
  destruct (visit_cases w p) as [E|[E|[E|[E|[c E]]]]];
    rewrite E in H; simplify_eq; auto.
Qed.

Lemma for_each_cons {A} (x : A) xs body w :
  for_each (x :: xs) body w
  = match body x w with
    | (w1, Ok _) => for_each xs body w1
    | (w1, Raise e) => (w1, Raise e)
    end.
Proof. done. Qed.

(** A loop that raised did so at some element, after the elements before
    it went through. *)
Lemma for_each_raise_inv {A} (xs : list A) body w w' e :
  for_each xs body w = (w', Raise e) ->
  exists pre x post w1,
    xs = pre ++ x :: post /\
    for_each pre body w = (w1, Ok tt) /\
    body x w1 = (w', Raise e).
Proof.
  revert w; induction xs as [|x xs IH]; intros w H; [done|].
  rewrite for_each_cons in H.
  destruct (body x w) as [w1 [[]|e1]] eqn:E.
  - apply IH in H as (pre & y & post & w2 & -> & Hpre & Hy).
    exists (x :: pre), y, post, w2. split_and!; [done| |done].
    by rewrite for_each_cons, E.
  - injection H as -> ->. by exists [], x, xs, w.
Qed.

Lemma for_each_raise_intro {A} (pre post : list A) x body w w1 w' e :
  for_each pre body w = (w1, Ok tt) ->
  body x w1 = (w', Raise e) ->
  for_each (pre ++ x :: post) body w = (w', Raise e).
Proof.
  revert w; induction pre as [|y pre IH]; intros w Hpre Hx.
  - injection Hpre as ->. simpl app. by rewrite for_each_cons, Hx.
  - rewrite for_each_cons in Hpre. simpl app. rewrite for_each_cons.
    destruct (body y w) as [w2 [[]|e2]]; [|done]. by apply IH.
Qed.

Lemma for_each_visit_trace pre w w1 :
  for_each pre visit w = (w1, Ok tt) ->
  exists evs,
    trace w1 = trace w ++ evs /\
    Forall (fun ev => exists q, q ∈ pre /\ about q ev) evs.
Proof.
  revert w; induction pre as [|p pre IH]; intros w H.
  - injection H as ->. exists []. by rewrite app_nil_r.
  - rewrite for_each_cons in H.
    destruct (visit p w) as [w2 [[]|e2]] eqn:E; [|done].
    apply visit_ok_trace in E as (evs1 & E1 & H1).
    apply IH in H as (evs2 & E2 & H2).
    exists (evs1 ++ evs2). split; [by rewrite E2, E1, app_assoc|].
    apply Forall_app. split.
    + eapply Forall_impl; [exact H1|]. intros ev ?.
      exists p. split; [left|done].
    + eapply Forall_impl; [exact H2|]. intros ev (q & ? & ?).
      exists q. split; [by right|done].
Qed.

Lemma about_not_done q : ~ about q (EvPrint "Done!").
Proof. by intros [|[|]]. Qed.

Lemma main_unfold glob w :
  main glob w
  = match for_each (glob "server/src/**/*.ts"%string) visit w with
    | (w1, Ok _) => (log (EvPrint "Done!") w1, Ok tt)
    | (w1, Raise e) => (w1, Raise e)
    end.
Proof.
  unfold main, patterns, io_bind. rewrite for_each_cons.
  destruct (for_each _ visit w) as [w1 [[]|e]]; done.
Qed.

End Driver.

(** * The claims *)

Section Claims.

Implicit Types (w : world) (p : string) (c : text).

Lemma written_log_write w p : written (log (EvWrite p) w) = written w ++ [p].
Proof. unfold written, log. simpl. by rewrite omap_app. Qed.

Lemma written_log_read w p : written (log (EvRead p) w) = written w.
Proof. unfold written, log. simpl. by rewrite omap_app, app_nil_r. Qed.

Lemma app_singleton_neq {A} (l : list A) (x : A) : l <> l ++ [x].
Proof.
  intros E. apply (f_equal length) in E. rewrite length_app in E.
  simpl in E. lia.
Qed.

(** C1. A readable file whose content the three rules leave as it is is
    only read: nothing is opened for writing and the file system stays
    the same, whether or not the file could be written.  A readable,
    writable file is opened for writing exactly when the content after
    the three rules differs from the content read, and then it holds the
    new content. *)
Theorem fix_file_writes_iff_changed w p c wr w' o :
  files w !! p = Some (File c true wr) ->
  fix_file p w = (w', o) ->
  (transform c = c -> written w' = written w /\ files w' = files w) /\
  (wr = true ->
   (written w' = written w ++ [p] <-> transform c <> c) /\
   (transform c <> c ->
    files w' !! p = Some (File (transform c) true true))).
Proof.
  intros Hf H. split.
  - intros Hc.
    rewrite (fix_file_unchanged _ _ _ _ Hf Hc) in H. injection H as <- <-.
    by rewrite written_log_read.
  - intros ->. destruct (decide (transform c = c)) as [Hc|Hc].
    + rewrite (fix_file_unchanged _ _ _ _ Hf Hc) in H. injection H as <- <-.
      rewrite written_log_read. split; [|done].
      split; [|done]. intros E. by apply app_singleton_neq in E.
    + rewrite (fix_file_changed _ _ _ Hf Hc) in H. injection H as <- <-.
      split.
      * split; [done|]. intros _. unfold written. simpl.
        by rewrite omap_app.
      * intros _. simpl. apply lookup_insert_eq.
Qed.

Lemma fix_file_writes_iff_changed_witness :
  let w :=
    World {["server/src/a.ts"%string := File scenario_in true true]} [] in
  let r := fix_file "server/src/a.ts" w in
  (transform scenario_in = scenario_in ->
   written r.1 = written w /\ files r.1 = files w) /\
  (true = true ->
   (written r.1 = written w ++ ["server/src/a.ts"%string]
    <-> transform scenario_in <> scenario_in) /\
   (transform scenario_in <> scenario_in ->
    files r.1 !! "server/src/a.ts"%string
    = Some (File (transform scenario_in) true true))).
Proof.
  intros w r.
  apply (fix_file_writes_iff_changed
           w "server/src/a.ts" scenario_in true r.1 r.2).
  - vm_compute. reflexivity.
  - apply surjective_pairing.
Defined.

(** C2, as stated, fails: a content without the URI import literal is
    still rewritten by rule 3 (and by rule 2), which run unguarded. *)
Lemma no_uri_import_still_rewritten :
  let c := lit "URI.joinPath(a, b)" in
  let w := World {["server/src/a.ts"%string := File c true true]} [] in
  contains uri_import c = false /\
  transform c = fixme /\
  transform c <> c /\
  console (fix_file "server/src/a.ts" w).1 = ["Fixed server/src/a.ts"%string].
Proof. split_and!; by vm_compute. Qed.

(** C2, amended. A content with no URI import literal in which neither
    rule 2's nor rule 3's pattern matches anywhere is left unchanged, and
    the file is read only: nothing is written and nothing is printed. *)
Theorem no_uri_import_no_match_unchanged c :
  contains uri_import c = false ->
  re_search join_pattern c = false ->
  re_search joinpath_pattern c = false ->
  transform c = c /\
  forall w p wr, files w !! p = Some (File c true wr) ->
    fix_file p w = (log (EvRead p) w, Ok tt).
Proof.
  intros H1 H2 H3.
  assert (transform c = c) as Hc.
  { unfold transform. rewrite rule1_guard_false.
    - unfold rule2, rule3.
      by rewrite (re_sub_no_match _ _ c H2), (re_sub_no_match _ _ c H3).
    - unfold rule1_guard. by rewrite H1. }
  split; [done|]. intros w p wr Hf. by eapply fix_file_unchanged.
Qed.

Lemma no_uri_import_no_match_unchanged_witness :
  transform (lit "const root = path.join(dir, name);")
  = lit "const root = path.join(dir, name);" /\
  forall w p wr,
    files w !! p
    = Some (File (lit "const root = path.join(dir, name);") true wr) ->
    fix_file p w = (log (EvRead p) w, Ok tt).
Proof.
  apply (no_uri_import_no_match_unchanged
           (lit "const root = path.join(dir, name);"));
    vm_compute; reflexivity.
Defined.

(* The claims on the path import after a run and on the second run come
   last, after the lemmas on segments that they need. *)

(** C5. For a non-empty [x] without a closing parenthesis, rule 2 turns
    [path.join(URI.parse(x),] into [path.join(URI.parse(x).fsPath,], and
    the same with [URI.file]: on the fragment alone, and at every
    occurrence in a content, where the rewritten fragment is followed by
    the rewriting of the text after it, whatever that text is. *)
Theorem rule2_rewrites_every_occurrence k x :
  is_ctor k -> x <> [] -> rparen ∉ x ->
  rule2 (join_call k x) = join_call_fixed k x /\
  forall a, exists a', forall b,
    rule2 (a ++ join_call k x ++ b) = a' ++ join_call_fixed k x ++ rule2 b.
Proof.
  intros Hk Hne Hx. split.
  - pose proof (rule2_hit k x [] Hk Hne Hx) as H.
    by rewrite !app_nil_r in H.
  - intros a. by apply rule2_occurrence.
Qed.

Lemma rule2_rewrites_every_occurrence_witness :
  rule2 (join_call (lit "parse") (lit "x"))
  = join_call_fixed (lit "parse") (lit "x") /\
  forall a, exists a', forall b,
    rule2 (a ++ join_call (lit "parse") (lit "x") ++ b)
    = a' ++ join_call_fixed (lit "parse") (lit "x") ++ rule2 b.
Proof.
  apply (rule2_rewrites_every_occurrence (lit "parse") (lit "x")).
  - by left.
  - discriminate.
  - compute_done.
Defined.

(** C6. For non-empty [args] without a closing parenthesis, rule 3
    replaces [URI.joinPath(args)], arguments included, by the placeholder
    [URI.file("FIXME")]: on the call alone, and at every occurrence in a
    content, where the placeholder is followed by the rewriting of the
    text after it, whatever that text is. *)
Theorem rule3_replaces_every_occurrence args :
  args <> [] -> rparen ∉ args ->
  rule3 (joinpath_call args) = fixme /\
  forall a, exists a', forall b,
    rule3 (a ++ joinpath_call args ++ b) = a' ++ fixme ++ rule3 b.
Proof.
  intros Hne Hx. split.
  - pose proof (rule3_hit args [] Hne Hx) as H.
    by rewrite !app_nil_r in H.
  - intros a. by apply rule3_occurrence.
Qed.

Lemma rule3_replaces_every_occurrence_witness :
  rule3 (joinpath_call (lit "a, b")) = fixme /\
  forall a, exists a', forall b,
    rule3 (a ++ joinpath_call (lit "a, b") ++ b) = a' ++ fixme ++ rule3 b.
Proof.
  apply (rule3_replaces_every_occurrence (lit "a, b")).
  - discriminate.
  - compute_done.
Defined.

(** C7, as stated, fails: with a nested closing parenthesis that is
    followed by a comma, rule 2 matches up to that parenthesis and
    rewrites the call. *)
Lemma nested_paren_before_comma_rewritten :
  rule2 (lit "path.join(URI.parse(f(x), true), y)")
  = lit "path.join(URI.parse(f(x).fsPath, true), y)" /\
  rule2 (lit "path.join(URI.parse(f(x), true), y)")
  <> lit "path.join(URI.parse(f(x), true), y)".
Proof. split; by vm_compute. Qed.

(** C7, amended. Where the first closing parenthesis after
    [path.join(URI.parse(] (or [URI.file(]) is not followed by a comma,
    as in [path.join(URI.parse(f(x)), y)], rule 2 does not match at the
    call, and the call up to that parenthesis is copied as it stands
    while the text before and after it is rewritten on its own. *)
Theorem rule2_skips_unclosed_call k u v :
  is_ctor k -> rparen ∉ u -> starts_with [comma] v = false ->
  re_match join_pattern (join_open k u ++ rparen :: v) = None /\
  forall a,
    rule2 (a ++ join_open k u ++ rparen :: v)
    = rule2 a ++ join_open k u ++ rparen :: rule2 v.
Proof.
  intros Hk Hu Hv.
  pose proof (rparen_join_open k u Hk Hu) as Ht.
  fold (join_open k u) in Ht.
  split.
  - pose proof (sub_join_no_comma _ v Ht Hv) as H.
    unfold sub_matcher in H.
    by destruct (re_match join_pattern _) as [[]|].
  - intros a. apply rule2_nested; [done| |done|done].
    unfold join_open. by destruct k.
Qed.

Lemma rule2_skips_unclosed_call_witness :
  re_match join_pattern
    (join_open (lit "parse") (lit "f(x") ++ rparen :: lit "), y)") = None /\
  forall a,
    rule2 (a ++ join_open (lit "parse") (lit "f(x") ++ rparen :: lit "), y)")
    = rule2 a ++ join_open (lit "parse") (lit "f(x") ++
      rparen :: rule2 (lit "), y)").
Proof.
  apply (rule2_skips_unclosed_call (lit "parse") (lit "f(x") (lit "), y)")).
  - by left.
  - compute_done.
  - reflexivity.
Defined.

Lemma console_unchanged (w1 w' : world) p :
  trace w' = trace w1 \/ trace w' = trace w1 ++ [EvRead p] ->
  console w' = console w1 /\ written w' = written w1.
Proof.
  unfold console, written. intros [->| ->]; [done|].
  rewrite !omap_app. simpl. by rewrite !app_nil_r.
Qed.

(** A visit of a regular file whose read fails, or whose write fails
    after the rules changed the content, raises that error. *)
Lemma visit_fails w1 p w' e :
  isfile p w1 = (w1, Ok true) ->
  (read_file p w1 = (w', Raise e) \/
   exists c w2,
     read_file p w1 = (w2, Ok c) /\ transform c <> c /\
     write_file p (transform c) w2 = (w', Raise e)) ->
  visit p w1 = (w', Raise e).
Proof.
  intros Hi H. unfold visit, io_bind at 1. rewrite Hi.
  unfold fix_file, io_bind at 1.
  destruct H as [Hr|(c & w2 & Hr & Hc & Hw)]; rewrite Hr; [done|].
  fold (transform c). rewrite bool_decide_eq_true_2 by done.
  unfold io_bind. by rewrite Hw.
Qed.

(** C8. A read or a write that fails ends the run.  When the loop has
    gone through the paths before [p] and [p] is a regular file whose
    read raises, or whose write raises after the rules changed what was
    read, the whole run raises that very error; the run is the same
    whatever paths follow [p] in the glob result, so none of them is
    visited; the files are as the visits before [p] left them; nothing
    is printed after those visits, and [Done!] is not printed. *)
Theorem failing_io_aborts_run glob w pre p post w1 w' e :
  glob "server/src/**/*.ts"%string = pre ++ p :: post ->
  for_each pre visit w = (w1, Ok tt) ->
  isfile p w1 = (w1, Ok true) ->
  (read_file p w1 = (w', Raise e) \/
   exists c w2,
     read_file p w1 = (w2, Ok c) /\ transform c <> c /\
     write_file p (transform c) w2 = (w', Raise e)) ->
  main glob w = (w', Raise e) /\
  (forall post', main (fun _ => pre ++ p :: post') w = (w', Raise e)) /\
  files w' = files w1 /\
  console w' = console w1 /\
  written w' = written w1 /\
  exists evs,
    trace w' = trace w ++ evs /\
    Forall (fun ev => exists q, q ∈ pre ++ [p] /\ about q ev) evs /\
    EvPrint "Done!" ∉ evs.
Proof.
  intros Hg Hpre Hi H.
  pose proof (visit_fails _ _ _ _ Hi H) as Hp.
  assert (forall post',
            main (fun _ => pre ++ p :: post') w = (w', Raise e)) as Hpost.
  { intros post'. rewrite main_unfold.
    by rewrite (for_each_raise_intro pre post' p visit w w1 w' e Hpre Hp). }
  destruct (visit_raise _ _ _ _ Hp) as (Hf & Htr & _).
  destruct (console_unchanged _ _ _ Htr) as [Hcon Hwri].
  destruct (for_each_visit_trace _ _ _ Hpre) as (evs & Ht & Hevs).
  assert (Forall (fun ev => exists q, q ∈ pre ++ [p] /\ about q ev) evs)
    as Hevs'.
  { eapply Forall_impl; [exact Hevs|]. intros ev (q & ? & ?).
    exists q. split; [|done]. apply elem_of_app. by left. }
  assert (EvPrint "Done!" ∉ evs) as Hdone.
  { intros Hin. rewrite Forall_forall in Hevs'.
    destruct (Hevs' _ Hin) as (q & _ & Hq). by apply about_not_done in Hq. }
  split_and!; try done.
  { rewrite main_unfold, Hg.
    by rewrite (for_each_raise_intro pre post p visit w w1 w' e Hpre Hp). }
  destruct Htr as [Htr|Htr].
  - exists evs. split_and!; try done. by rewrite Htr.
  - exists (evs ++ [EvRead p]). split_and!.
    + by rewrite Htr, Ht, app_assoc.
    + apply Forall_app. split; [done|].
      constructor; [|constructor]. exists p. split; [|by left].
      apply elem_of_app. right. left.
    + intros Hin. apply elem_of_app in Hin as [Hin|Hin]; [done|].
      apply list_elem_of_singleton in Hin. done.
Qed.

Lemma failing_io_aborts_run_witness :
  let a := "server/src/a.ts"%string in
  let b := "server/src/b.ts"%string in
  let d := "server/src/d.ts"%string in
  let glob := fun _ : string => [a; b; d] in
  let start (eb : entry) :=
    World (<[a := File scenario_in true true]>
             (<[b := eb]> {[d := File scenario_in true true]})) [] in
  let claim (w w1 w' : world) (e : io_error) :=
    main glob w = (w', Raise e) /\
    (forall post', main (fun _ => [a] ++ b :: post') w = (w', Raise e)) /\
    files w' = files w1 /\
    console w' = console w1 /\
    written w' = written w1 /\
    exists evs,
      trace w' = trace w ++ evs /\
      Forall (fun ev => exists q, q ∈ [a] ++ [b] /\ about q ev) evs /\
      EvPrint "Done!" ∉ evs in
  (let w := start (File scenario_in false true) in
   let w1 := (for_each [a] visit w).1 in
   claim w w1 w1 (ReadError b)) /\
  (let w := start (File scenario_in true false) in
   let w1 := (for_each [a] visit w).1 in
   claim w w1 (log (EvRead b) w1) (WriteError b)).
Proof.
  intros a b d glob start claim. split; intros w w1.
  - apply (failing_io_aborts_run glob w [a] b [d] w1 w1 (ReadError b)).
    + reflexivity.
    + vm_compute. reflexivity.
    + vm_compute. reflexivity.
    + left. vm_compute. reflexivity.
  - apply (failing_io_aborts_run glob w [a] b [d] w1
             (log (EvRead b) w1) (WriteError b)).
    + reflexivity.
    + vm_compute. reflexivity.
    + vm_compute. reflexivity.
    + right. exists scenario_in, (log (EvRead b) w1). split_and!.
      * vm_compute. reflexivity.
      * vm_compute. discriminate.
      * vm_compute. reflexivity.
Defined.

(** C9. End to end: with one file in the glob result, readable and
    writable, holding the URI import and [foo(path.join(URI.file(p), q));],
    one run leaves the file with the path import on the line after the
    URI import and with [path.join(URI.file(p).fsPath, q)], and prints
    [Fixed <path>] and then [Done!]. *)
Theorem end_to_end glob w p :
  glob "server/src/**/*.ts"%string = [p] ->
  files w !! p = Some (File scenario_in true true) ->
  exists w',
    main glob w = (w', Ok tt) /\
    files w' = <[p := File scenario_out true true]> (files w) /\
    console w' = console w ++ ["Fixed " +:+ p; "Done!"]%string.
Proof.
  intros Hg Hf.
  assert (transform scenario_in = scenario_out) as Ht by (by vm_compute).
  assert (transform scenario_in <> scenario_in) as Hne by (by vm_compute).
  rewrite main_unfold, Hg, for_each_cons, (visit_file _ _ _ _ _ Hf).
  rewrite (fix_file_changed _ _ _ Hf Hne), Ht. simpl.
  eexists. split_and!; [done|done|].
  unfold console. simpl. by rewrite <- app_assoc, omap_app.
Qed.

Lemma end_to_end_witness :
  let glob := fun _ : string => ["server/src/a.ts"%string] in
  let w :=
    World {["server/src/a.ts"%string := File scenario_in true true]} [] in
  exists w',
    main glob w = (w', Ok tt) /\
    files w'
    = <["server/src/a.ts"%string := File scenario_out true true]> (files w) /\
    console w' = console w ++ ["Fixed " +:+ "server/src/a.ts"; "Done!"]%string.
Proof.
  intros glob w. apply (end_to_end glob w "server/src/a.ts").
  - reflexivity.
  - vm_compute. reflexivity.
Defined.

(** C10. The presence check looks for the URI import literal without a
    semicolon, the replacement for the statement with it: on a content
    that holds the literal but never followed by a semicolon, and no path
    import literal, the check passes and rule 1 changes nothing. *)
Theorem rule1_needs_semicolon c :
  contains uri_import c = true ->
  contains uri_import_stmt c = false ->
  contains path_import c = false ->
  rule1_guard c = true /\ rule1 c = c.
Proof.
  intros H1 H2 H3. split.
  - unfold rule1_guard. by rewrite H1, H3.
  - by apply rule1_no_stmt.
Qed.

Lemma rule1_needs_semicolon_witness :
  rule1_guard (uri_import ++ newline :: lit "foo();") = true /\
  rule1 (uri_import ++ newline :: lit "foo();")
  = uri_import ++ newline :: lit "foo();".
Proof.
  apply (rule1_needs_semicolon (uri_import ++ newline :: lit "foo();"));
    vm_compute; reflexivity.
Defined.

End Claims.

(** * Further properties of the rules *)

Section MoreRules.

Implicit Types (s y x a b w r rest k t l : text).

Lemma re_search_intro (re : regex) (s : text) :
  (forall a b, s = a ++ b -> re_match re b = None) -> re_search re s = false.
Proof.
  induction s as [|c s IH]; intros H; simpl.
  - by rewrite (H [] []).
  - rewrite (H [] (c :: s)) by done. apply IH.
    intros a b ->. by apply (H (c :: a)).
Qed.

Lemma sub_matcher_none (re : regex) repl s :
  sub_matcher re repl s = None -> re_match re s = None.
Proof. unfold sub_matcher. by destruct (re_match re s) as [[]|]. Qed.

(** X1. Rule 3 leaves no match of its own pattern behind: its output, and
    so the content [fix_file] ends with, holds no [URI.joinPath(args)]
    with non-empty, parenthesis-free [args]; applying rule 3 again
    changes nothing. *)
Theorem rule3_leaves_no_match s :
  re_search joinpath_pattern (rule3 s) = false /\
  re_search joinpath_pattern (transform s) = false /\
  rule3 (rule3 s) = rule3 s.
Proof.
  assert (forall s', re_search joinpath_pattern (rule3 s') = false) as H.
  { intros s'. apply re_search_intro. intros a b E.
    by apply (sub_matcher_none _ joinpath_repl), (rule3_no_match s' a b). }
  split_and!; [apply H|apply H|].
  by apply re_sub_no_match.
Qed.

(** The first character of rule 2's output is the first character of its
    input. *)
Lemma rule2_head s d r : rule2 s = d :: r -> exists s', s = d :: s'.
Proof.
  destruct s as [|c s]; [done|].
  destruct (sub_matcher join_pattern join_repl (c :: s))
    as [[rep n]|] eqn:E.
  - apply sub_join_inv in E as (k & y & rest & Hk & ? & ? & Heq & _ & _).
    rewrite Heq, rule2_hit by done.
    unfold join_call_fixed, join_call. simpl. intros [= <- _]. eauto.
  - rewrite rule2_miss by done. intros [= <- _]. eauto.
Qed.

(** The output of rule 2 up to its first closing parenthesis is the input
    up to its first closing parenthesis; after it comes either the
    rewriting of the rest, or the inserted [.fsPath] where the rest began
    with the comma of a match. *)
Lemma rule2_prefix s w r :
  rule2 s = w ++ rparen :: r -> rparen ∉ w ->
  exists r0, s = w ++ rparen :: r0 /\
    (r = rule2 r0 \/
     exists r1, r0 = comma :: r1 /\ r = lit ".fsPath," ++ rule2 r1).
Proof.
  revert w; induction s as [|d s1 IH]; intros w H Hw.
  { by destruct w. }
  destruct (sub_matcher join_pattern join_repl (d :: s1))
    as [[rep n]|] eqn:E.
  - apply sub_join_inv in E as (k & y & rest & Hk & ? & ? & Heq & _ & _).
    rewrite Heq, rule2_hit, join_call_fixed_split in H by done.
    change (lit ").fsPath,") with (rparen :: lit ".fsPath,") in H.
    rewrite app_cons_assoc in H.
    apply split_first in H as [<- <-]; [|by apply rparen_join_open|done].
    exists (comma :: rest). split.
    + by rewrite Heq, join_call_split, app_cons_assoc.
    + right. by exists rest.
  - rewrite rule2_miss in H by done.
    destruct w as [|d' w1]; simpl in H; injection H as -> H.
    { exists s1. split; [done|by left]. }
    apply not_elem_of_cons in Hw as [_ Hw].
    destruct (IH _ H Hw) as (r0 & -> & Hr).
    exists r0. split; [done|exact Hr].
Qed.

Lemma app_cons_split (x z t1 : text) (c : ascii) l :
  x ++ c :: z = t1 ++ l ->
  (exists l1, l = l1 ++ c :: z /\ x = t1 ++ l1) \/
  (exists z1, z = z1 ++ l /\ t1 = x ++ c :: z1).
Proof.
  intros E. apply app_eq_app in E as [u [[-> E]|[-> E]]].
  - left. by exists u.
  - destruct u as [|e u]; simpl in E.
    + left. exists []. subst l. by rewrite !app_nil_r.
    + injection E as <- ->. right. by exists u.
Qed.

Lemma rule2_no_match s t1 t2 :
  rule2 s = t1 ++ t2 -> sub_matcher join_pattern join_repl t2 = None.
Proof.
  revert t1 t2.
  induction s as [s IH] using (induction_ltof1 _ (@length ascii)).
  unfold ltof in IH. intros t1 t2 H.
  destruct s as [|c s0].
  { destruct t1, t2; done. }
  destruct (sub_matcher join_pattern join_repl (c :: s0))
    as [[rep n]|] eqn:E.
  - apply sub_join_inv in E as (k & y & rest & Hk & Hy1 & Hy2 & Heq & _ & _).
    assert (length rest < length (c :: s0)) as Hlen.
    { rewrite Heq, length_app. unfold join_call.
      rewrite length_app. simpl. lia. }
    rewrite Heq, rule2_hit in H by done.
    apply app_eq_app in H as [l [[Hf Ht]|[Hf Ht]]];
      [|by apply (IH rest Hlen l)].
    destruct l as [|e l].
    { simpl in Ht. apply (IH rest Hlen [] t2). by rewrite Ht. }
    rewrite join_call_fixed_split in Hf.
    change (lit ").fsPath,") with (rparen :: lit ".fsPath,") in Hf.
    destruct (sub_matcher join_pattern join_repl t2)
      as [[rep' n']|] eqn:E'; [|done].
    exfalso.
    apply sub_join_inv in E' as (k' & y' & rest' & Hk' & ? & ? & Heq' & _ & _).
    rewrite Ht in Heq'.
    apply app_cons_split in Hf as [(l1 & Hl & Hx)|(z1 & Hz & _)].
    + rewrite Hl, join_call_split, !app_cons_assoc in Heq'.
      apply split_first in Heq' as [_ Heq'];
        [done| |by apply rparen_join_open].
      pose proof (rparen_join_open k y Hk Hy2) as Hopen.
      rewrite Hx in Hopen. by apply not_elem_of_app in Hopen as [_ ?].
    + assert ("p" ∈ lit ".fsPath,") as Hin.
      { rewrite Hz. apply elem_of_app. right.
        unfold join_call in Heq'. simpl in Heq'. injection Heq' as -> _.
        left. }
      revert Hin. compute_done.
  - rewrite rule2_miss in H by done.
    destruct t1 as [|c' t1]; simpl in H.
    2:{ injection H as -> H. apply (IH s0) in H; [done|simpl; lia]. }
    subst t2.
    destruct (sub_matcher join_pattern join_repl (c :: rule2 s0))
      as [[rep' n']|] eqn:E'; [|done].
    exfalso.
    apply sub_join_inv in E'
      as (k' & y' & rest' & Hk' & Hy1 & Hy2 & Heq & _ & _).
    rewrite join_call_split, app_cons_assoc in Heq.
    pose proof (rparen_join_open k' y' Hk' Hy2) as Hopen.
    remember (lit "path.join(" ++ lit "URI." ++ k' ++ lit "(" ++ y')
      as w eqn:Ew.
    destruct w as [|d w1]; [done|].
    simpl in Heq. injection Heq as -> Heq.
    apply not_elem_of_cons in Hopen as Hw1. destruct Hw1 as [_ Hw1].
    apply rule2_prefix in Heq as (r0 & -> & [Hr|(r1 & _ & Hr)]); [| |done].
    + symmetry in Hr. apply rule2_head in Hr as [r0' ->].
      assert (d :: w1 ++ rparen :: comma :: r0' = join_call k' y' ++ r0')
        as Hs.
      { rewrite join_call_split, app_cons_assoc, <- Ew. done. }
      rewrite Hs, sub_join_hit in E; done.
    + discriminate.
Qed.

(** X2. Rule 2 finds nothing to rewrite in its own output: once [.fsPath]
    stands between the closing parenthesis and the comma the pattern no
    longer matches there, and the insertion creates no new match. *)
Theorem rule2_idempotent s :
  re_search join_pattern (rule2 s) = false /\ rule2 (rule2 s) = rule2 s.
Proof.
  assert (re_search join_pattern (rule2 s) = false) as H.
  { apply re_search_intro. intros a b E.
    by apply (sub_matcher_none _ join_repl), (rule2_no_match s a b). }
  split; [done|]. by apply re_sub_no_match.
Qed.

End MoreRules.

Section MoreRules2.

Implicit Types (s y x a b rest k t l p : text).

(** X3. Rule 2 only inserts: the input is a subsequence of the output, so
    no character of the content is lost or reordered, and the output is
    at least as long. *)
Theorem rule2_only_inserts s :
  s `sublist_of` rule2 s /\ length s <= length (rule2 s).
Proof.
  assert (s `sublist_of` rule2 s) as H.
  { induction s as [s IH] using (induction_ltof1 _ (@length ascii)).
    unfold ltof in IH.
    destruct s as [|c s0]; [constructor|].
    destruct (sub_matcher join_pattern join_repl (c :: s0))
      as [[rep n]|] eqn:E.
    - apply sub_join_inv in E as (k & y & rest & Hk & ? & ? & Heq & _ & _).
      rewrite Heq, rule2_hit by done.
      apply sublist_app.
      + rewrite join_call_split, join_call_fixed_split.
        apply sublist_app; [done|].
        change (lit ").fsPath,") with (rparen :: lit ".fsPath" ++ [comma]).
        apply sublist_skip, sublist_inserts_l. done.
      + apply IH. rewrite Heq, length_app. unfold join_call.
        rewrite length_app. simpl. lia.
    - rewrite rule2_miss by done. apply sublist_skip, IH. simpl. lia. }
  split; [done|]. by apply sublist_length.
Qed.

(** The first occurrence of a literal. *)
Lemma contains_first p s :
  contains p s = true ->
  exists a b, s = a ++ p ++ b /\
    forall a1 a2, a = a1 ++ a2 -> a2 <> [] ->
      starts_with p (a2 ++ p ++ b) = false.
Proof.
  induction s as [|c s IH]; simpl; intros H.
  - destruct p; [|done].
    exists [], []. split; [done|]. intros a1 a2 E' ?. by destruct a1, a2.
  - destruct (starts_with p (c :: s)) eqn:E.
    + destruct (starts_with_inv _ _ E) as [r Hr].
      exists [], r. split; [done|]. intros a1 a2 E' ?. by destruct a1, a2.
    + simpl in H. destruct (IH H) as (a & b & -> & Ha).
      exists (c :: a), b. split; [done|].
      intros [|d a1] a2 E' Hne; simpl in E'.
      * by subst a2.
      * injection E' as -> ->. by apply (Ha a1).
Qed.

Lemma contains_false_take p x y :
  contains p (x ++ y) = false -> contains p x = false.
Proof.
  intros H. destruct (contains p x) eqn:E; [|done].
  apply contains_inv in E as (a & b & ->).
  rewrite <- !app_assoc in H. by rewrite contains_app in H.
Qed.

(** [str.replace] at the first occurrence of the statement. *)
Lemma str_replace_first a b :
  (forall a1 a2, a = a1 ++ a2 -> a2 <> [] ->
     starts_with uri_import_stmt (a2 ++ uri_import_stmt ++ b) = false) ->
  str_replace uri_import_stmt uri_path_import_stmt (a ++ uri_import_stmt ++ b)
  = a ++ uri_path_import_stmt ++
    str_replace uri_import_stmt uri_path_import_stmt b.
Proof.
  intros Ha. unfold str_replace. rewrite scan_copy.
  - by f_equal.
  - intros a1 a2 E Hne. unfold replace_matcher. by rewrite (Ha a1 a2).
Qed.

(** X4. Rule 1 is idempotent: once it has inserted the path import its
    own presence check keeps it from inserting again. *)
Theorem rule1_idempotent s : rule1 (rule1 s) = rule1 s.
Proof.
  destruct (rule1_guard s) eqn:Hg.
  2:{ by rewrite !(rule1_guard_false s). }
  destruct (contains uri_import_stmt s) eqn:Hc.
  2:{ by rewrite !(rule1_no_stmt s). }
  apply contains_first in Hc as (a & b & -> & Ha).
  assert (rule1 (a ++ uri_import_stmt ++ b)
          = (a ++ uri_import_stmt ++ [newline]) ++ path_import ++
            lit ";" ++ str_replace uri_import_stmt uri_path_import_stmt b)
    as ->.
  { unfold rule1. rewrite Hg, str_replace_first by done.
    rewrite uri_path_import_stmt_split. by rewrite <- !app_assoc. }
  apply rule1_guard_false. unfold rule1_guard.
  rewrite (contains_app _ path_import). apply andb_false_r.
Qed.

Lemma occurrences_uri_import_stmt a b :
  (forall a1 a2, a = a1 ++ a2 -> a2 <> [] ->
     starts_with uri_import_stmt (a2 ++ uri_import_stmt ++ b) = false) ->
  occurrences uri_import_stmt (a ++ uri_import_stmt ++ b)
  = 1 + occurrences uri_import_stmt b.
Proof.
  intros Ha. rewrite occurrences_app_none by done.
  change uri_import_stmt with ("i" :: lit "mport { URI } from 'vscode-uri';").
  rewrite occurrences_hit_head. by f_equal.
Qed.

Lemma occurrences_path_import_after a t :
  contains path_import (a ++ uri_import_stmt) = false ->
  occurrences path_import (a ++ uri_path_import_stmt ++ t)
  = 1 + occurrences path_import t.
Proof.
  intros H.
  rewrite uri_path_import_stmt_split.
  replace (a ++ (uri_import_stmt ++ newline :: path_import ++ lit ";") ++ t)
    with (((a ++ uri_import_stmt) ++ [newline]) ++
          path_import ++ (lit ";" ++ t))
    by (by rewrite <- !app_assoc).
  rewrite occurrences_app_none.
  - change path_import with ("i" :: lit "mport * as path from 'path'").
    rewrite occurrences_hit_head. by f_equal.
  - intros t1 t2 E Hne.
    apply suffix_snoc in E as (t2' & -> & E); [|done].
    destruct (starts_with _ _) eqn:Es; [|done]. exfalso.
    apply starts_with_inv in Es as [r Er].
    rewrite app_cons_assoc in Er.
    apply app_eq_app in Er as [l [[Ht Hr]|[Hp Hr]]].
    + rewrite E, Ht in H. by apply contains_false_app in H.
    + destruct l as [|e l].
      * rewrite app_nil_r in Hp. rewrite E, <- Hp in H.
        rewrite <- (app_nil_r path_import) in H at 2.
        by apply contains_false_app in H.
      * simpl in Hr. injection Hr as <- _.
        assert (newline ∈ path_import) as Hin.
        { rewrite Hp. apply elem_of_app. right. left. }
        revert Hin. compute_done.
Qed.

Lemma occurrences_str_replace s :
  contains path_import s = false ->
  occurrences path_import
    (str_replace uri_import_stmt uri_path_import_stmt s)
  = occurrences uri_import_stmt s.
Proof.
  induction s as [s IH] using (induction_ltof1 _ (@length ascii)).
  unfold ltof in IH. intros Hp.
  destruct (contains uri_import_stmt s) eqn:Hc.
  - apply contains_first in Hc as (a & b & -> & Ha).
    rewrite str_replace_first, occurrences_uri_import_stmt by done.
    rewrite occurrences_path_import_after.
    + f_equal. apply IH.
      * rewrite !length_app. simpl. lia.
      * rewrite app_assoc in Hp. by apply contains_false_drop in Hp.
    + rewrite app_assoc in Hp. by apply contains_false_take in Hp.
  - rewrite str_replace_absent by done.
    by rewrite !occurrences_zero.
Qed.

(** X5. When rule 1 fires it adds one path import per URI import
    statement: the path import literal then occurs as often as the
    statement (with its semicolon) occurred in the input — never, once,
    or several times. *)
Theorem rule1_one_import_per_statement s :
  rule1_guard s = true ->
  occurrences path_import (rule1 s) = occurrences uri_import_stmt s.
Proof.
  intros Hg. unfold rule1. rewrite Hg.
  apply occurrences_str_replace.
  unfold rule1_guard in Hg. apply andb_true_iff in Hg as [_ Hg].
  by apply negb_true_iff in Hg.
Qed.

Lemma rule1_one_import_per_statement_witness :
  occurrences path_import
    (rule1 (uri_import_stmt ++ newline :: uri_import_stmt ++
            newline :: uri_import))
  = occurrences uri_import_stmt
      (uri_import_stmt ++ newline :: uri_import_stmt ++ newline :: uri_import).
Proof.
  apply (rule1_one_import_per_statement
           (uri_import_stmt ++ newline :: uri_import_stmt ++
            newline :: uri_import)).
  vm_compute. reflexivity.
Defined.

End MoreRules2.

Section MoreRules3.

Implicit Types (s y x a b rest k t l : text).

(** X6. What rule 2's pattern matches, for all its backtracking: at a
    position it matches exactly a text of the form
    [path.join(URI.parse(y),] or [path.join(URI.file(y),] with [y]
    non-empty and free of closing parentheses, so the match ends at the
    first closing parenthesis, and group 1 is the [URI.parse(y)] call. *)
Theorem join_pattern_matches s rest g :
  re_match join_pattern s = Some (rest, g) <->
  exists k y, is_ctor k /\ y <> [] /\ (rparen ∉ y) /\
    s = join_call k y ++ rest /\ g = Some (uri_call k y).
Proof.
  split.
  - apply join_match_inv.
  - intros (k & y & Hk & Hne & Hy & -> & ->). by apply join_match_intro.
Qed.

(** X7. What rule 3's pattern matches: at a position it matches exactly
    a text of the form [URI.joinPath(y)] with [y] non-empty and free of
    closing parentheses, so the match ends at the first closing
    parenthesis, whatever follows. *)
Theorem joinpath_pattern_matches s rest :
  (exists g, re_match joinpath_pattern s = Some (rest, g)) <->
  exists y, y <> [] /\ (rparen ∉ y) /\ s = joinpath_call y ++ rest.
Proof.
  split.
  - intros [g H]. by apply joinpath_match_inv in H.
  - intros (y & Hne & Hy & ->). exists None. by apply joinpath_match_intro.
Qed.

Lemma join_call_literal k y :
  join_call k y = lit "path.join(URI." ++ k ++ lit "(" ++ y ++ lit "),".
Proof. unfold join_call, uri_call. by rewrite <- !app_assoc. Qed.

(** X8. The three literal triggers: a content that holds neither the URI
    import statement with its semicolon, nor [path.join(URI.], nor
    [URI.joinPath(] comes out of the three rules as it went in, and its
    file is read but neither written nor reported. *)
Theorem no_literal_trigger_unchanged s :
  contains uri_import_stmt s = false ->
  contains (lit "path.join(URI.") s = false ->
  contains (lit "URI.joinPath(") s = false ->
  transform s = s /\
  forall w p wr, files w !! p = Some (File s true wr) ->
    fix_file p w = (log (EvRead p) w, Ok tt).
Proof.
  intros H1 H2 H3.
  assert (transform s = s) as Hs.
  { unfold transform. rewrite rule1_no_stmt by done.
    assert (rule2 s = s) as ->.
    { apply scan_id. intros a b ->.
      destruct (sub_matcher join_pattern join_repl b)
        as [[rep n]|] eqn:E; [|done].
      apply sub_join_inv in E as (k & y & rest & _ & _ & _ & -> & _ & _).
      rewrite join_call_literal, <- !app_assoc in H2.
      by apply contains_false_app in H2. }
    apply scan_id. intros a b ->.
    destruct (sub_matcher joinpath_pattern joinpath_repl b)
      as [[rep n]|] eqn:E; [|done].
    apply sub_joinpath_inv in E as (y & rest & _ & _ & -> & _ & _).
    unfold joinpath_call in H3. rewrite <- !app_assoc in H3.
    by apply contains_false_app in H3. }
  split; [done|]. intros w p wr Hf. by eapply fix_file_unchanged.
Qed.

Lemma no_literal_trigger_unchanged_witness :
  transform (uri_import ++ newline :: lit "foo(URI.parse(x));")
  = uri_import ++ newline :: lit "foo(URI.parse(x));" /\
  forall w p wr,
    files w !! p
    = Some (File (uri_import ++ newline :: lit "foo(URI.parse(x));") true wr) ->
    fix_file p w = (log (EvRead p) w, Ok tt).
Proof.
  apply (no_literal_trigger_unchanged
           (uri_import ++ newline :: lit "foo(URI.parse(x));"));
    vm_compute; reflexivity.
Defined.

(** X9. Calls without arguments are not matched: [[^)]+] needs at least
    one character, so [URI.joinPath()] and [path.join(URI.parse(),] (or
    [URI.file(),]) at the scanner's position are copied as they stand and
    the text after them is rewritten on its own. *)
Theorem empty_arguments_copied b :
  rule3 (joinpath_call [] ++ b) = joinpath_call [] ++ rule3 b /\
  forall k, is_ctor k ->
    rule2 (join_call k [] ++ b) = join_call k [] ++ rule2 b.
Proof.
  split.
  - unfold rule3, re_sub. apply scan_copy. intros t1 t2 E Hne.
    destruct (sub_matcher joinpath_pattern joinpath_repl (t2 ++ b))
      as [[rep n]|] eqn:Em; [|done].
    exfalso.
    apply sub_joinpath_inv in Em as (y & rest & Hy1 & Hy2 & Heq & _ & _).
    rewrite joinpath_call_split, app_nil_r in E.
    apply suffix_snoc in E as (t2' & -> & E); [|done].
    rewrite joinpath_call_split, !app_cons_assoc in Heq.
    apply split_first in Heq as [Heq _];
      [| |by apply rparen_joinpath_open].
    + rewrite Heq in E. apply (f_equal length) in E.
      rewrite !length_app in E. destruct y; [done|simpl in E; lia].
    + assert (rparen ∉ lit "URI.joinPath(") as Hj by compute_done.
      rewrite E in Hj. by apply not_elem_of_app in Hj as [_ ?].
  - intros k Hk. unfold rule2, re_sub. apply scan_copy.
    intros t1 t2 E Hne.
    destruct (sub_matcher join_pattern join_repl (t2 ++ b))
      as [[rep n]|] eqn:Em; [|done].
    exfalso.
    apply sub_join_inv in Em as (k' & y & rest & Hk' & Hy1 & Hy2 & Heq & _ & _).
    rewrite join_call_split in E.
    apply app_cons_split in E as [(l1 & -> & E)|(z1 & Hz & _)].
    + rewrite join_call_split, !app_cons_assoc in Heq.
      assert (rparen ∉ l1) as Hl1.
      { pose proof (rparen_join_open k [] Hk) as Ho.
        rewrite E in Ho. apply not_elem_of_app in Ho as [_ ?]; [done|].
        apply not_elem_of_nil. }
      apply split_first in Heq as [Heq _];
        [|done|by apply rparen_join_open].
      rewrite Heq in E.
      destruct Hk as [-> | ->], Hk' as [-> | ->];
        pose proof (f_equal length E) as Hlen;
        rewrite !length_app in Hlen; simpl in Hlen;
        try (destruct y; [done|simpl in Hlen; lia]).
      destruct y as [|d y]; [done|].
      destruct t1; [|simpl in Hlen; lia].
      destruct y; [|simpl in Hlen; lia].
      discriminate.
    + destruct z1 as [|? [|? ?]]; simpl in Hz.
      * subst t2. by rewrite join_call_literal in Heq.
      * injection Hz as _ Hz. by subst t2.
      * by injection Hz.
Qed.

Lemma empty_arguments_copied_witness :
  rule3 (joinpath_call [] ++ lit ", x)")
  = joinpath_call [] ++ rule3 (lit ", x)") /\
  rule2 (join_call (lit "file") [] ++ lit " x)")
  = join_call (lit "file") [] ++ rule2 (lit " x)").
Proof.
  split.
  - apply (empty_arguments_copied (lit ", x)")).
  - apply (empty_arguments_copied (lit " x)")). by right.
Defined.

End MoreRules3.

(** * Further properties of the run *)

Section MoreDriver.

Implicit Types (w : world) (p q : string) (c : text).

Lemma console_log_print w line :
  console (log (EvPrint line) w) = console w ++ [line].
Proof. unfold console, log. simpl. by rewrite omap_app. Qed.

Lemma console_log_read w p : console (log (EvRead p) w) = console w.
Proof. unfold console, log. simpl. by rewrite omap_app, app_nil_r. Qed.

(** One visit, in full: either the file system, the files written and the
    console stay as they are (the path is skipped, the file is unchanged,
    or an error is raised for an unreadable or unwritable regular file),
    or a readable, writable file whose content changes is rewritten,
    logged as written and reported. *)
Lemma visit_step w p w' o :
  visit p w = (w', o) ->
  (files w' = files w /\ written w' = written w /\ console w' = console w /\
   (o = Ok tt \/
    (exists c wr, files w !! p = Some (File c false wr) /\
       o = Raise (ReadError p)) \/
    (exists c, files w !! p = Some (File c true false) /\
       o = Raise (WriteError p)))) \/
  (exists c,
     files w !! p = Some (File c true true) /\
     files w' = <[p := File (transform c) true true]> (files w) /\
     written w' = written w ++ [p] /\
     console w' = console w ++ [fixed_line p] /\
     o = Ok tt).
Proof.
  intros H. destruct (files w !! p) as [[c r wr|]|] eqn:E.
  - rewrite (visit_file _ _ _ _ _ E) in H. destruct r.
    + destruct (decide (transform c = c)) as [Hc|Hc].
      * rewrite (fix_file_unchanged _ _ _ _ E Hc) in H. injection H as <- <-.
        left. rewrite written_log_read, console_log_read. auto.
      * destruct wr.
        -- rewrite (fix_file_changed _ _ _ E Hc) in H. injection H as <- <-.
           right. exists c. split_and!; try done.
           ++ unfold written. simpl. by rewrite omap_app.
           ++ unfold console. simpl. by rewrite omap_app.
        -- rewrite (fix_file_denied _ _ _ E Hc) in H. injection H as <- <-.
           left. rewrite written_log_read, console_log_read.
           split_and!; try done. right; right. by exists c.
    + rewrite (fix_file_unreadable _ _ _ _ E) in H. injection H as <- <-.
      left. split_and!; try done. right; left. by exists c, wr.
  - rewrite visit_skip in H by (intros ???; by rewrite E).
    injection H as <- <-. left. auto.
  - rewrite visit_skip in H by (intros ???; by rewrite E).
    injection H as <- <-. left. auto.
Qed.

Lemma visit_kind w p w' o q :
  visit p w = (w', o) ->
  entry_kind <$> files w' !! q = entry_kind <$> files w !! q.
Proof.
  intros [(-> & _)|(c & Hf & -> & _)]%visit_step; [done|].
  destruct (decide (p = q)) as [<-|Hne].
  - by rewrite lookup_insert_eq, Hf.
  - by rewrite lookup_insert_ne.
Qed.

Lemma visit_other w p w' o q :
  visit p w = (w', o) -> q <> p -> files w' !! q = files w !! q.
Proof.
  intros [(-> & _)|(c & Hf & -> & _)]%visit_step Hne; [done|].
  by rewrite lookup_insert_ne.
Qed.

Lemma entry_kind_file w w' q c r wr :
  entry_kind <$> files w' !! q = entry_kind <$> files w !! q ->
  files w' !! q = Some (File c r wr) ->
  exists c0, files w !! q = Some (File c0 r wr).
Proof.
  intros Hk Hf. rewrite Hf in Hk. simpl in Hk.
  destruct (files w !! q) as [[c0 r0 wr0|]|]; simplify_eq/=. by exists c0.
Qed.

(** The loop, in full. *)
Lemma for_each_visit_spec xs w w' o :
  for_each xs visit w = (w', o) ->
  (forall q, entry_kind <$> files w' !! q = entry_kind <$> files w !! q) /\
  (forall q, q ∉ xs -> files w' !! q = files w !! q) /\
  (exists ps,
     ps `sublist_of` xs /\
     written w' = written w ++ ps /\
     console w' = console w ++ map fixed_line ps) /\
  (forall e, o = Raise e ->
     exists p c r wr,
       p ∈ xs /\ files w !! p = Some (File c r wr) /\
       ((e = ReadError p /\ r = false) \/
        (e = WriteError p /\ r = true /\ wr = false))).
Proof.
  revert w; induction xs as [|p xs IH]; intros w H.
  { injection H as <- <-. split_and!; try done.
    exists []. by rewrite !app_nil_r. }
  rewrite for_each_cons in H.
  destruct (visit p w) as [w1 o1] eqn:Hv.
  pose proof (fun q => visit_kind _ _ _ _ q Hv) as Hk1.
  pose proof (fun q => visit_other _ _ _ _ q Hv) as Ho1.
  destruct o1 as [[]|e1].
  - destruct (IH _ H) as (Hk & Ho & (ps & Hps & Hw & Hc) & He).
    split_and!.
    + intros q. by rewrite Hk, Hk1.
    + intros q Hq. apply not_elem_of_cons in Hq as [? ?].
      by rewrite Ho, Ho1.
    + apply visit_step in Hv
        as [(_ & Hw1 & Hc1 & _)|(c & _ & _ & Hw1 & Hc1 & _)].
      * exists ps. split_and!; [by apply sublist_cons| |].
        -- by rewrite Hw, Hw1.
        -- by rewrite Hc, Hc1.
      * exists (p :: ps). split_and!; [by apply sublist_skip| |].
        -- by rewrite Hw, Hw1, <- app_assoc.
        -- by rewrite Hc, Hc1, <- app_assoc.
    + intros e ->. destruct (He e eq_refl) as (p' & c & r & wr & Hin & Hf & Hr).
      destruct (entry_kind_file _ _ _ _ _ _ (Hk1 p') Hf) as [c0 Hf0].
      exists p', c0, r, wr. split_and!; [by right|done|done].
  - injection H as <- <-.
    apply visit_step in Hv
      as [(Hf & Hw1 & Hc1 & Hr)|(c & _ & _ & _ & _ & ?)]; [|done].
    split_and!; try done.
    + intros q _. by rewrite Hf.
    + exists []. rewrite !app_nil_r. split_and!; [apply sublist_nil_l|done..].
    + intros e [= <-].
      destruct Hr as [?|[(c & wr & Hp & [= ->])|(c & Hp & [= ->])]]; [done| |].
      * exists p, c, false, wr. split_and!; [left|done|by left].
      * exists p, c, true, false. split_and!; [left|done|by right].
Qed.

(** X10. A run that completes reports exactly what it wrote: the files
    opened for writing are some of the glob result, in its order, and
    the console gets one [Fixed <path>] line for each of them, in that
    order, and then [Done!]. *)
Theorem run_reports_what_it_writes glob w w' :
  main glob w = (w', Ok tt) ->
  exists ps,
    ps `sublist_of` glob "server/src/**/*.ts"%string /\
    written w' = written w ++ ps /\
    console w' = console w ++ map fixed_line ps ++ ["Done!"%string].
Proof.
  intros H. rewrite main_unfold in H.
  destruct (for_each _ visit w) as [w1 [[]|e]] eqn:E; [|done].
  injection H as <-.
  apply for_each_visit_spec in E as (_ & _ & (ps & Hps & Hw & Hc) & _).
  exists ps. split_and!; [done| |].
  - unfold written, log. simpl. rewrite omap_app, app_nil_r. exact Hw.
  - by rewrite console_log_print, Hc, <- app_assoc.
Qed.

Lemma run_reports_what_it_writes_witness :
  let glob := fun _ : string =>
    ["server/src/a.ts"; "server/src/b.ts"]%string in
  let w :=
    World (<["server/src/a.ts"%string := File scenario_in true true]>
             {["server/src/b.ts"%string := File scenario_out true true]})
      [] in
  let w' := (main glob w).1 in
  exists ps,
    ps `sublist_of` glob "server/src/**/*.ts"%string /\
    written w' = written w ++ ps /\
    console w' = console w ++ map fixed_line ps ++ ["Done!"%string].
Proof.
  intros glob w w'. apply (run_reports_what_it_writes glob w w').
  vm_compute. reflexivity.
Defined.

(** X11. What a run, completed or aborted, never does: it creates and
    deletes no path, turns no file into a directory or back, and changes
    no permission. *)
Theorem run_frame glob w w' o :
  main glob w = (w', o) ->
  dom (files w') = dom (files w) /\
  (forall q, entry_kind <$> files w' !! q = entry_kind <$> files w !! q).
Proof.
  intros H. rewrite main_unfold in H.
  destruct (for_each _ visit w) as [w1 o1] eqn:E.
  apply for_each_visit_spec in E as (Hk & _ & _ & _).
  assert (files w' = files w1) as ->.
  { destruct o1 as [[]|e]; by injection H as <- <-. }
  split; [|done].
  apply set_eq. intros q. rewrite !elem_of_dom.
  specialize (Hk q).
  destruct (files w1 !! q), (files w !! q); simplify_eq/=;
    split; intros [? ?]; by eauto.
Qed.

Lemma run_frame_witness :
  let glob := fun _ : string => ["server/src/a.ts"%string] in
  let w :=
    World (<["server/src/a.ts"%string := File scenario_in true true]>
             {["README.md"%string := File scenario_in true true]})
      [] in
  let r := main glob w in
  dom (files r.1) = dom (files w) /\
  (forall q, entry_kind <$> files r.1 !! q = entry_kind <$> files w !! q).
Proof.
  intros glob w r. apply (run_frame glob w r.1 r.2).
  apply surjective_pairing.
Defined.

(** X14. A glob result without regular files (empty, or only directories
    and paths that are gone) makes a run that opens nothing and prints
    only [Done!]. *)
Theorem run_without_files glob w :
  (forall p, p ∈ glob "server/src/**/*.ts"%string ->
     forall c r wr, files w !! p <> Some (File c r wr)) ->
  main glob w = (log (EvPrint "Done!") w, Ok tt).
Proof.
  intros Hall. rewrite main_unfold.
  assert (for_each (glob "server/src/**/*.ts"%string) visit w = (w, Ok tt))
    as ->; [|done].
  induction (glob "server/src/**/*.ts"%string) as [|p xs IH]; [done|].
  rewrite for_each_cons, visit_skip.
  - apply IH. intros q Hq. apply Hall. by right.
  - apply Hall. left.
Qed.

Lemma run_without_files_witness :
  let glob := fun _ : string => ["server/src/gen.ts"%string] in
  let w := World {["server/src/gen.ts"%string := Dir]} [] in
  main glob w = (log (EvPrint "Done!") w, Ok tt).
Proof.
  intros glob w. apply (run_without_files glob w).
  intros p Hin c r wr Hf.
  apply list_elem_of_In in Hin. simpl in Hin.
  destruct Hin as [<-|[]]; vm_compute in Hf; by simplify_eq.
Defined.

End MoreDriver.

(** * Segments: the rules between closing parentheses *)

Section Delimiters.

Implicit Types (p s x y z t u v : text) (d e : ascii).

(** A character that [p] lacks ends every attempt to match [p]. *)
Lemma starts_with_delim p x d y :
  d ∉ p -> starts_with p (x ++ d :: y) = starts_with p x.
Proof.
  revert x; induction p as [|c p IH]; intros x Hd; [by destruct x|].
  apply not_elem_of_cons in Hd as [Hc Hd].
  destruct x as [|e x]; simpl.
  - assert (Ascii.eqb c d = false) as -> by (apply Ascii.eqb_neq; congruence).
    done.
  - by rewrite IH.
Qed.

Lemma contains_nil_false p : p <> [] -> contains p [] = false.
Proof. by destruct p. Qed.

Lemma contains_delim p x d y :
  d ∉ p -> p <> [] ->
  contains p (x ++ d :: y) = contains p x || contains p y.
Proof.
  intros Hd Hne. induction x as [|e x IH].
  - pose proof (starts_with_delim p [] d y Hd) as H0.
    destruct p as [|c p]; [done|]. simpl in *. by rewrite H0.
  - pose proof (starts_with_delim p (e :: x) d y Hd) as H0.
    simpl in *. by rewrite IH, H0, orb_assoc.
Qed.

Lemma occurrences_nil p : p <> [] -> occurrences p [] = 0.
Proof. by destruct p. Qed.

Lemma occurrences_delim p x d y :
  d ∉ p -> p <> [] ->
  occurrences p (x ++ d :: y) = occurrences p x + occurrences p y.
Proof.
  intros Hd Hne. induction x as [|e x IH].
  - pose proof (starts_with_delim p [] d y Hd) as H0.
    destruct p as [|c p]; [done|]. simpl in *. by rewrite H0.
  - pose proof (starts_with_delim p (e :: x) d y Hd) as H0.
    simpl in *. rewrite IH, H0. lia.
Qed.

(** Only the first [length p] characters decide whether [p] starts a
    text. *)
Lemma starts_with_long p u v :
  length p <= length u -> starts_with p (u ++ v) = starts_with p u.
Proof.
  revert u; induction p as [|c p IH]; intros u Hl; [by destruct u|].
  destruct u as [|e u]; simpl in *; [lia|].
  rewrite IH by lia. done.
Qed.

(** An occurrence of [p] cannot end inside a text that lacks the last
    character of [p]. *)
Lemma contains_last p e x t :
  e ∉ t -> contains (p ++ [e]) (x ++ t) = true ->
  contains (p ++ [e]) x = true.
Proof.
  intros He H. apply contains_inv in H as (u & v & E).
  rewrite <- app_assoc, app_assoc in E. simpl in E. symmetry in E.
  apply app_cons_split in E as [(l1 & Ht & _)|(z1 & _ & ->)].
  - exfalso. apply He. rewrite Ht. apply elem_of_app. right. left.
  - rewrite <- app_assoc. simpl.
    replace (u ++ p ++ e :: z1) with (u ++ (p ++ [e]) ++ z1)
      by (by rewrite <- app_assoc).
    apply contains_app.
Qed.

Lemma occurrences_pos p s : contains p s = true -> 1 <= occurrences p s.
Proof.
  intros H. destruct (occurrences p s) eqn:E; [|lia].
  apply occurrences_zero_inv in E. congruence.
Qed.

End Delimiters.

Section Segments.

Implicit Types (s w r x y z t : text).

(** Without a closing parenthesis nothing matches. *)
Lemma sub_join_needs_paren s :
  rparen ∉ s -> sub_matcher join_pattern join_repl s = None.
Proof.
  intros Hs. destruct (sub_matcher _ _ s) as [[rep n]|] eqn:E; [|done].
  apply sub_join_inv in E as (k & y & rest & _ & _ & _ & -> & _ & _).
  exfalso. apply Hs. rewrite join_call_split, app_cons_assoc.
  apply elem_of_app. right. left.
Qed.

Lemma sub_joinpath_needs_paren s :
  rparen ∉ s -> sub_matcher joinpath_pattern joinpath_repl s = None.
Proof.
  intros Hs. destruct (sub_matcher _ _ s) as [[rep n]|] eqn:E; [|done].
  apply sub_joinpath_inv in E as (y & rest & _ & _ & -> & _ & _).
  exfalso. apply Hs. rewrite joinpath_call_split, app_cons_assoc.
  apply elem_of_app. right. left.
Qed.

Lemma rule2_no_paren s : rparen ∉ s -> rule2 s = s.
Proof.
  intros Hs. apply scan_id. intros a b ->.
  apply sub_join_needs_paren. by apply not_elem_of_app in Hs as [_ ?].
Qed.

Lemma rule3_no_paren s : rparen ∉ s -> rule3 s = s.
Proof.
  intros Hs. apply scan_id. intros a b ->.
  apply sub_joinpath_needs_paren. by apply not_elem_of_app in Hs as [_ ?].
Qed.

Lemma rule2_comma r : rule2 (comma :: r) = comma :: rule2 r.
Proof.
  apply rule2_miss.
  destruct (sub_matcher _ _ _) as [[rep n]|] eqn:E; [|done].
  by apply sub_join_inv in E as (k & y & rest & _ & _ & _ & ? & _ & _).
Qed.

Lemma rule2_rparen r : rule2 (rparen :: r) = rparen :: rule2 r.
Proof.
  apply rule2_miss.
  destruct (sub_matcher _ _ _) as [[rep n]|] eqn:E; [|done].
  by apply sub_join_inv in E as (k & y & rest & _ & _ & _ & ? & _ & _).
Qed.

Lemma rule3_rparen r : rule3 (rparen :: r) = rparen :: rule3 r.
Proof.
  apply rule3_miss.
  destruct (sub_matcher _ _ _) as [[rep n]|] eqn:E; [|done].
  by apply sub_joinpath_inv in E as (y & rest & _ & _ & ? & _ & _).
Qed.

(** Rule 2 on a text up to its first closing parenthesis: the text is
    kept, and [.fsPath] may be put after the parenthesis. *)
Lemma rule2_segment w r :
  rparen ∉ w ->
  exists ins, (ins = [] \/ ins = lit ".fsPath") /\
    rule2 (w ++ rparen :: r) = w ++ rparen :: ins ++ rule2 r.
Proof.
  induction w as [|c w IH]; intros Hw.
  { exists []. split; [by left|]. apply rule2_rparen. }
  destruct (sub_matcher join_pattern join_repl ((c :: w) ++ rparen :: r))
    as [[rep n]|] eqn:E.
  - apply sub_join_inv in E as (k & y & rest & Hk & ? & ? & Heq & _ & _).
    rewrite Heq, rule2_hit by done.
    rewrite join_call_split, app_cons_assoc in Heq.
    apply split_first in Heq as [-> ->]; [|done|by apply rparen_join_open].
    exists (lit ".fsPath"). split; [by right|].
    change ([comma] ++ rest) with (comma :: rest).
    rewrite rule2_comma, join_call_fixed_split.
    by rewrite <- !app_assoc.
  - apply not_elem_of_cons in Hw as [_ Hw].
    destruct (IH Hw) as (ins & Hins & Hr).
    exists ins. split; [done|].
    simpl app. rewrite rule2_miss by done. by rewrite Hr.
Qed.

(** Rule 3 on a text up to its first closing parenthesis: it is kept, or
    cut at a [URI.joinPath(] and ended by the placeholder. *)
Lemma rule3_segment w r :
  rparen ∉ w ->
  rule3 (w ++ rparen :: r) = w ++ rparen :: rule3 r \/
  exists w0 y,
    y <> [] /\ w = w0 ++ lit "URI.joinPath(" ++ y /\
    rule3 (w ++ rparen :: r) = w0 ++ fixme ++ rule3 r.
Proof.
  induction w as [|c w IH]; intros Hw.
  { left. apply rule3_rparen. }
  destruct (sub_matcher joinpath_pattern joinpath_repl
              ((c :: w) ++ rparen :: r)) as [[rep n]|] eqn:E.
  - apply sub_joinpath_inv in E as (y & rest & ? & ? & Heq & _ & _).
    rewrite Heq, rule3_hit by done.
    rewrite joinpath_call_split, app_cons_assoc in Heq.
    apply split_first in Heq as [-> ->];
      [|done|by apply rparen_joinpath_open].
    right. by exists [], y.
  - apply not_elem_of_cons in Hw as [_ Hw].
    simpl app. rewrite rule3_miss by done.
    destruct (IH Hw) as [->|(w0 & y & ? & -> & ->)].
    + by left.
    + right. by exists (c :: w0), y.
Qed.

(** Neither rule adds an occurrence of the path import literal. *)
Lemma occurrences_path_import_rule2 s :
  occurrences path_import (rule2 s) <= occurrences path_import s.
Proof.
  induction s as [s IH] using (induction_ltof1 _ (@length ascii)).
  unfold ltof in IH.
  destruct (first_occurrence rparen s) as [Hs|(w & r & -> & Hw)].
  { by rewrite rule2_no_paren. }
  destruct (rule2_segment w r Hw) as (ins & Hins & ->).
  assert (occurrences path_import (ins ++ rule2 r)
          = occurrences path_import (rule2 r)) as Hi.
  { destruct Hins as [-> | ->]; [done|].
    apply occurrences_app_none. intros a1 a2 E Hne.
    by apply (starts_with_other_head "i" _ (lit ".fsPath") a1 a2);
      [compute_done| |]. }
  rewrite !occurrences_delim, Hi by (done || compute_done).
  assert (length r < length (w ++ rparen :: r)) as Hl.
  { rewrite length_app. simpl. lia. }
  pose proof (IH r Hl). lia.
Qed.

Lemma occurrences_path_import_rule3 s :
  occurrences path_import (rule3 s) <= occurrences path_import s.
Proof.
  induction s as [s IH] using (induction_ltof1 _ (@length ascii)).
  unfold ltof in IH.
  destruct (first_occurrence rparen s) as [Hs|(w & r & -> & Hw)].
  { by rewrite rule3_no_paren. }
  assert (length r < length (w ++ rparen :: r)) as Hl.
  { rewrite length_app. simpl. lia. }
  pose proof (IH r Hl) as Hr.
  destruct (rule3_segment w r Hw) as [->|(w0 & y & _ & -> & ->)].
  - rewrite !occurrences_delim by (done || compute_done). lia.
  - rewrite fixme_split, <- !app_assoc.
    change (fixme_body ++ [rparen] ++ rule3 r)
      with ("U" :: (lit "RI.file(" ++ dquote :: lit "FIXME" ++ [dquote]) ++
            rparen :: rule3 r).
    change (lit "URI.joinPath(" ++ y ++ rparen :: r)
      with ("U" :: (lit "RI.joinPath(" ++ y) ++ rparen :: r).
    rewrite (occurrences_delim _ w0 "U"), (occurrences_delim _ w0 "U")
      by (done || compute_done).
    rewrite !(occurrences_delim _ _ rparen) by (done || compute_done).
    assert (occurrences path_import
              (lit "RI.file(" ++ dquote :: lit "FIXME" ++ [dquote]) = 0)
      as -> by done.
    lia.
Qed.

End Segments.

Section Blocks.

Implicit Types (s w r x y z t a b blk : text).

Lemma last_in_suffix (x x0 u v : text) (e : ascii) :
  x = x0 ++ [e] -> x = u ++ v -> v <> [] -> e ∈ v.
Proof.
  intros -> E Hne. apply suffix_snoc in E as (v' & -> & _); [|done].
  apply elem_of_app. right. left.
Qed.

(** Where an occurrence of [l] can lie in a text around a block: before
    the block or after it, when neither can end inside the other and
    the block is not the shorter one. *)
Lemma block_overlap (l l0 blk blk0 : text) (el eb : ascii) t y w0 y' :
  l = l0 ++ [el] -> blk = blk0 ++ [eb] ->
  el ∉ blk -> eb ∉ l -> length l <= length blk ->
  t ++ blk ++ y = w0 ++ l ++ y' ->
  (exists t2, t = w0 ++ l ++ t2) \/ (exists y1, w0 = t ++ blk ++ y1).
Proof.
  intros Hl Hb Hel Heb Hlen E.
  apply app_eq_app in E as [u [[Ht E]|[Hw E]]].
  - apply app_eq_app in E as [u2 [[Hu E]|[Hu E]]].
    2:{ left. exists u2. by rewrite Ht, Hu. }
    destruct (decide (u2 = [])) as [->|Hne].
    { left. exists []. rewrite app_nil_r in *. by rewrite Ht, Hu. }
    exfalso. apply app_eq_app in E as [u3 [[Hblk _]|[Hu2 _]]].
    + apply Hel. rewrite Hblk. apply elem_of_app. left.
      by apply (last_in_suffix l l0 u).
    + apply Heb. rewrite Hu, Hu2, !length_app in Hlen.
      assert (u = []) as -> by (apply length_zero_iff_nil; lia).
      assert (u3 = []) as -> by (apply length_zero_iff_nil; lia).
      rewrite Hu, Hu2, app_nil_r, Hb. simpl.
      apply elem_of_app. right. left.
  - apply app_eq_app in E as [u2 [[Hblk E]|[Hu E]]].
    2:{ right. exists u2. by rewrite Hw, Hu. }
    destruct (decide (u2 = [])) as [->|Hne].
    { right. exists []. rewrite app_nil_r in *. by rewrite Hw, Hblk. }
    exfalso. apply app_eq_app in E as [u3 [[Hl' _]|[Hu2 _]]].
    + apply Heb. rewrite Hl'. apply elem_of_app. left.
      by apply (last_in_suffix blk blk0 u).
    + apply Hel. rewrite Hblk, Hu2, Hl, <- !app_assoc.
      apply elem_of_app. right. apply elem_of_app. right. left.
Qed.

Lemma joinpath_closed_tail a a1 t :
  joinpath_closed a -> a = a1 ++ t -> rparen ∉ t ->
  contains (lit "URI.joinPath(") t = false.
Proof.
  intros Hc -> Ht. destruct (contains _ t) eqn:E; [|done].
  apply contains_inv in E as (x & z & ->).
  exfalso. apply Ht. apply elem_of_app. right. apply elem_of_app. right.
  apply (Hc (a1 ++ x)). by rewrite <- !app_assoc.
Qed.

Lemma joinpath_closed_after w a1 :
  joinpath_closed (w ++ rparen :: a1) -> joinpath_closed a1.
Proof.
  intros Hc x z ->. apply (Hc (w ++ rparen :: x)).
  by rewrite app_cons_assoc.
Qed.

(** Rule 2 moves no block that is free of closing parentheses, and
    leaves no [URI.joinPath(] open before it that was not open. *)
Lemma rule2_keeps_block a blk b :
  rparen ∉ blk -> joinpath_closed a ->
  exists a2 b2,
    rule2 (a ++ blk ++ b) = a2 ++ blk ++ b2 /\ joinpath_closed a2.
Proof.
  intros Hblk.
  induction a as [a IH] using (induction_ltof1 _ (@length ascii)).
  unfold ltof in IH. intros Hc.
  destruct (first_occurrence rparen a) as [Ha|(w & a1 & -> & Hw)].
  - destruct (first_occurrence rparen b) as [Hb|(y & r & -> & Hy)].
    + exists a, b. split; [|done]. apply rule2_no_paren.
      rewrite !not_elem_of_app. done.
    + destruct (rule2_segment (a ++ blk ++ y) r) as (ins & _ & Hr).
      { rewrite !not_elem_of_app. done. }
      exists a, (y ++ rparen :: ins ++ rule2 r). split; [|done].
      rewrite <- !app_assoc in Hr. by rewrite Hr.
  - destruct (IH a1) as (a2 & b2 & Hr & Hc2).
    { rewrite length_app. simpl. lia. }
    { by eapply joinpath_closed_after. }
    destruct (rule2_segment w (a1 ++ blk ++ b) Hw) as (ins & Hins & Hs).
    exists (w ++ rparen :: ins ++ a2), b2. split.
    { rewrite app_cons_assoc, Hs, Hr.
      by rewrite app_cons_assoc, <- !app_assoc. }
    intros x1 x2 E.
    apply app_cons_split in E as [(l1 & E & _)|(z1 & E & _)].
    + assert (rparen ∈ lit "URI.joinPath(" ++ x2) as Hin.
      { rewrite E. apply elem_of_app. right. left. }
      apply elem_of_app in Hin as [Hin|Hin]; [|done].
      exfalso. revert Hin. compute_done.
    + destruct Hins as [-> | ->]; [by apply (Hc2 z1)|].
      apply app_eq_app in E as [u [[Hf E]|[Hz E]]].
      * destruct u as [|c u].
        { apply (Hc2 []). symmetry. exact E. }
        exfalso. simpl in E. injection E as <- _.
        assert ("U" ∈ lit ".fsPath") as Hin.
        { rewrite Hf. apply elem_of_app. right. left. }
        revert Hin. compute_done.
      * by apply (Hc2 u).
Qed.

(** Rule 3 moves no such block either, when every [URI.joinPath(] before
    it is closed before it. *)
Lemma rule3_keeps_block a blk blk0 (eb : ascii) b :
  blk = blk0 ++ [eb] -> rparen ∉ blk -> "(" ∉ blk ->
  eb ∉ lit "URI.joinPath(" -> 13 <= length blk ->
  joinpath_closed a ->
  exists a3 b3, rule3 (a ++ blk ++ b) = a3 ++ blk ++ b3.
Proof.
  intros Hb Hblk Hopen Heb Hlen.
  induction a as [a IH] using (induction_ltof1 _ (@length ascii)).
  unfold ltof in IH. intros Hc.
  destruct (first_occurrence rparen a) as [Ha|(w & a1 & -> & Hw)].
  - destruct (first_occurrence rparen b) as [Hb'|(y & r & -> & Hy)].
    + exists a, b. apply rule3_no_paren. rewrite !not_elem_of_app. done.
    + destruct (rule3_segment (a ++ blk ++ y) r) as [Hr|(w0 & y' & _ & E & Hr)].
      { rewrite !not_elem_of_app. done. }
      * exists a, (y ++ rparen :: rule3 r).
        rewrite <- !app_assoc in Hr. by rewrite Hr.
      * apply (block_overlap (lit "URI.joinPath(") (lit "URI.joinPath")
                 blk blk0 "(" eb) in E
          as [(t2 & Ht)|(y1 & Hw0)]; try done.
        -- exfalso. apply Ha. rewrite Ht.
           apply elem_of_app. right. apply elem_of_app. right.
           by apply (Hc w0).
        -- exists a, (y1 ++ fixme ++ rule3 r).
           rewrite <- !app_assoc in Hr. rewrite Hr, Hw0.
           by rewrite <- !app_assoc.
  - destruct (IH a1) as (a3 & b3 & Hr).
    { rewrite length_app. simpl. lia. }
    { by eapply joinpath_closed_after. }
    rewrite app_cons_assoc.
    destruct (rule3_segment w (a1 ++ blk ++ b) Hw)
      as [Hs|(w0 & y' & _ & _ & Hs)]; rewrite Hs, Hr.
    + exists (w ++ rparen :: a3), b3. by rewrite app_cons_assoc.
    + exists (w0 ++ fixme ++ a3), b3. by rewrite <- !app_assoc.
Qed.

End Blocks.

(** * The path import after a run *)

Section SingleInsertion.

Implicit Types (a b : text).

Lemma joinpath_closedb_cons (c : ascii) a :
  joinpath_closedb (c :: a)
  = (negb (starts_with (lit "URI.joinPath(") (c :: a))
     || existsb (Ascii.eqb rparen) (drop 13 (c :: a)))
    && joinpath_closedb a.
Proof. done. Qed.

Lemma joinpath_closedb_sound a :
  joinpath_closedb a = true -> joinpath_closed a.
Proof.
  induction a as [|c a IH]; intros H a1 a2 E.
  { by destruct a1. }
  rewrite joinpath_closedb_cons in H.
  apply andb_true_iff in H as [H1 H2].
  destruct a1 as [|d a1].
  - rewrite E in H1. rewrite app_nil_l, starts_with_app in H1.
    change (drop 13 (lit "URI.joinPath(" ++ a2)) with a2 in H1.
    apply existsb_exists in H1 as (x & Hin & Hx).
    apply Ascii.eqb_eq in Hx as <-. by apply list_elem_of_In.
  - injection E as -> E. by apply (IH H2 a1).
Qed.

Lemma rule1_single a b :
  occurrences uri_import_stmt (a ++ uri_import_stmt ++ b) = 1 ->
  contains path_import (a ++ uri_import_stmt ++ b) = false ->
  rule1 (a ++ uri_import_stmt ++ b) = a ++ uri_path_import_stmt ++ b.
Proof.
  intros Hocc Hpath. unfold rule1, rule1_guard.
  rewrite contains_uri_import, Hpath. simpl.
  by apply str_replace_single.
Qed.

(** C3, as stated, fails in three ways.  [str.replace] replaces every
    occurrence, so two URI import statements give two path imports; rule
    3 runs over the import lines like over any other text, so an unclosed
    [URI.joinPath(] before the statement swallows the statement and the
    inserted path import up to the next closing parenthesis; and the
    literal without its semicolon passes the presence check but is not
    what [str.replace] looks for, so nothing is inserted. *)
Lemma path_import_twice_or_never :
  (let c := uri_import_stmt ++ newline :: uri_import_stmt in
   contains uri_import c = true /\
   contains path_import c = false /\
   transform c
   = uri_path_import_stmt ++ newline :: uri_path_import_stmt /\
   occurrences path_import (transform c) = 2) /\
  (let c := uri_import in
   contains uri_import c = true /\
   contains path_import c = false /\
   transform c = c /\
   occurrences path_import (transform c) = 0) /\
  (let c := lit "URI.joinPath(" ++ uri_import_stmt ++ lit ")" in
   contains uri_import c = true /\
   contains path_import c = false /\
   occurrences uri_import_stmt c = 1 /\
   occurrences path_import (rule1 c) = 1 /\
   transform c = fixme /\
   occurrences path_import (transform c) = 0).
Proof. split_and!; by vm_compute. Qed.

(** C3, amended. Where the content holds the URI import statement (with
    its semicolon) exactly once and no path import literal, and every
    [URI.joinPath(] before the statement has its closing parenthesis
    before the statement, rule 1 inserts the path import statement once,
    on the line after the URI import statement; after processing it
    still stands there, and the content holds the path import literal
    exactly once. *)
Theorem path_import_once_after_processing a b :
  occurrences uri_import_stmt (a ++ uri_import_stmt ++ b) = 1 ->
  contains path_import (a ++ uri_import_stmt ++ b) = false ->
  joinpath_closed a ->
  rule1 (a ++ uri_import_stmt ++ b)
  = a ++ uri_import_stmt ++
    newline :: lit "import * as path from 'path';" ++ b /\
  (exists a' b',
     transform (a ++ uri_import_stmt ++ b)
     = a' ++ uri_import_stmt ++
       newline :: lit "import * as path from 'path';" ++ b') /\
  occurrences path_import (transform (a ++ uri_import_stmt ++ b)) = 1.
Proof.
  intros Hocc Hpath Hc.
  pose proof (rule1_single a b Hocc Hpath) as H1.
  pose proof (occurrences_path_import a b Hpath) as Hone.
  assert (a ++ uri_path_import_stmt ++ b
          = a ++ uri_import_stmt ++
            newline :: lit "import * as path from 'path';" ++ b) as Hshape.
  { rewrite uri_path_import_stmt_split. by rewrite <- !app_assoc. }
  split; [by rewrite H1|].
  destruct (rule2_keeps_block a uri_path_import_stmt b)
    as (a2 & b2 & H2 & Hc2); [compute_done|done|].
  destruct (rule3_keeps_block a2 uri_path_import_stmt
              (uri_import_stmt ++ newline :: path_import) ";" b2)
    as (a3 & b3 & H3); [done|compute_done..|done|].
  assert (transform (a ++ uri_import_stmt ++ b)
          = a3 ++ uri_path_import_stmt ++ b3) as Ht.
  { unfold transform. by rewrite H1, H2, H3. }
  split.
  - exists a3, b3. rewrite Ht, uri_path_import_stmt_split.
    by rewrite <- !app_assoc.
  - apply Nat.le_antisymm.
    + rewrite <- Hone. unfold transform. rewrite H1.
      etrans; [apply occurrences_path_import_rule3|].
      apply occurrences_path_import_rule2.
    + apply occurrences_pos. rewrite Ht, uri_path_import_stmt_split.
      replace (a3 ++ (uri_import_stmt ++ newline :: path_import ++ lit ";")
               ++ b3)
        with ((a3 ++ uri_import_stmt ++ [newline]) ++ path_import ++
              lit ";" ++ b3) by (by rewrite <- !app_assoc).
      apply contains_app.
Qed.

Lemma path_import_once_after_processing_witness :
  let a := lit "const u = URI.joinPath(a, b);" ++ [newline] in
  let b := newline :: lit "foo(path.join(URI.file(p), q));" in
  rule1 (a ++ uri_import_stmt ++ b)
  = a ++ uri_import_stmt ++
    newline :: lit "import * as path from 'path';" ++ b /\
  (exists a' b',
     transform (a ++ uri_import_stmt ++ b)
     = a' ++ uri_import_stmt ++
       newline :: lit "import * as path from 'path';" ++ b') /\
  occurrences path_import (transform (a ++ uri_import_stmt ++ b)) = 1.
Proof.
  intros a b. apply (path_import_once_after_processing a b).
  - vm_compute. reflexivity.
  - vm_compute. reflexivity.
  - apply joinpath_closedb_sound. vm_compute. reflexivity.
Defined.

End SingleInsertion.

(** * The second run *)

Section SecondRun.

Implicit Types (s w r x y z t c : text).

Lemma contains_app_left p x t :
  contains p x = true -> contains p (x ++ t) = true.
Proof.
  intros H. apply contains_inv in H as (a & b & ->).
  rewrite <- !app_assoc. apply contains_app.
Qed.

(** The statement does not start inside the two lines that rule 1 writes
    for it. *)
Lemma uri_import_stmt_inside_replacement (u u2 t : text) :
  u <> [] -> u2 <> [] -> uri_path_import_stmt = u ++ u2 ->
  starts_with uri_import_stmt (u2 ++ t) = false.
Proof.
  intros Hu Hu2 E.
  destruct (starts_with uri_import_stmt (u2 ++ t)) eqn:Hs; [|done].
  exfalso. destruct u as [|e u']; [done|].
  pose proof (occurrences_app_hit uri_import_stmt u' u2 t Hu2 Hs) as H.
  assert (occurrences uri_import_stmt (u' ++ u2 ++ t)
          = occurrences uri_import_stmt t) as H1.
  { rewrite app_assoc.
    assert (u' ++ u2 = tail uri_path_import_stmt) as -> by (by rewrite E).
    reflexivity. }
  lia.
Qed.

(** After rule 1 has replaced the statement, every statement of the text
    is followed by the path import. *)
Lemma path_import_follows_str_replace s :
  path_import_follows (str_replace uri_import_stmt uri_path_import_stmt s).
Proof.
  induction s as [s IH] using (induction_ltof1 _ (@length ascii)).
  unfold ltof in IH.
  destruct (contains uri_import_stmt s) eqn:Hc.
  2:{ rewrite str_replace_absent by done. intros x z E.
      rewrite E, contains_app in Hc. done. }
  apply contains_first in Hc as (a & b & -> & Ha).
  rewrite str_replace_first by done.
  assert (path_import_follows
            (str_replace uri_import_stmt uri_path_import_stmt b)) as Hb.
  { apply IH. rewrite !length_app. simpl. lia. }
  set (out := str_replace uri_import_stmt uri_path_import_stmt b) in *.
  assert (forall z, uri_path_import_stmt ++ out = uri_import_stmt ++ z ->
                    starts_with (newline :: path_import) z = true) as Hhere.
  { intros z E. rewrite uri_path_import_stmt_split, <- app_assoc in E.
    apply app_inv_head in E as <-. reflexivity. }
  intros x z E.
  apply app_eq_app in E as [u [[-> E]|[-> E]]].
  - destruct u as [|e u]; [by apply Hhere|].
    exfalso.
    assert (starts_with uri_import_stmt
              ((e :: u) ++ uri_path_import_stmt ++ out) = true) as Hs.
    { rewrite <- E. apply starts_with_app. }
    pose proof (Ha x (e :: u) eq_refl ltac:(done)) as Hf.
    rewrite uri_path_import_stmt_split, <- app_assoc, app_assoc in Hs.
    rewrite app_assoc in Hf.
    rewrite starts_with_long in Hs, Hf
      by (rewrite length_app; simpl; lia).
    congruence.
  - destruct u as [|e u]; [by apply Hhere|].
    apply app_eq_app in E as [u2 [[E1 E2]|[_ E2]]].
    + destruct u2 as [|e2 u2]; [by apply (Hb [])|].
      exfalso.
      pose proof (uri_import_stmt_inside_replacement
                    (e :: u) (e2 :: u2) out ltac:(done) ltac:(done) E1) as Hf.
      rewrite <- E2, starts_with_app in Hf. done.
    + by apply (Hb u2).
Qed.

Lemma path_import_follows_tail x d r :
  path_import_follows (x ++ d :: r) -> path_import_follows r.
Proof.
  intros H a z ->. apply (H (x ++ d :: a)). by rewrite app_cons_assoc.
Qed.

Lemma path_import_follows_delim w d r :
  d ∉ newline :: path_import ->
  path_import_follows (w ++ d :: r) -> path_import_follows w.
Proof.
  intros Hd H x z ->.
  pose proof (H x (z ++ d :: r)) as Hs.
  rewrite starts_with_delim in Hs by done.
  apply Hs. by rewrite <- !app_assoc.
Qed.

Lemma path_import_follows_contains s :
  path_import_follows s ->
  contains uri_import_stmt s = true -> contains path_import s = true.
Proof.
  intros H Hc. apply contains_inv in Hc as (x & z & ->).
  pose proof (H x z eq_refl) as Hs.
  apply starts_with_inv in Hs as [z' ->].
  replace (x ++ uri_import_stmt ++ (newline :: path_import) ++ z')
    with ((x ++ uri_import_stmt ++ [newline]) ++ path_import ++ z')
    by (by rewrite <- !app_assoc).
  apply contains_app.
Qed.

(** Rule 3 cannot take the path import away from a statement that is
    followed by it. *)
Lemma path_import_after_rule3 s :
  path_import_follows s ->
  contains uri_import_stmt (rule3 s) = true ->
  contains path_import (rule3 s) = true.
Proof.
  induction s as [s IH] using (induction_ltof1 _ (@length ascii)).
  unfold ltof in IH. intros Hf.
  destruct (first_occurrence rparen s) as [Hs|(w & r & -> & Hw)].
  { rewrite rule3_no_paren by done. by apply path_import_follows_contains. }
  assert (contains uri_import_stmt (rule3 r) = true ->
          contains path_import (rule3 r) = true) as Hr.
  { apply IH.
    - rewrite length_app. simpl. lia.
    - by eapply path_import_follows_tail. }
  destruct (rule3_segment w r Hw) as [->|(w0 & y & _ & Ew & ->)].
  - rewrite !contains_delim by (done || compute_done).
    intros [Hc|Hc]%orb_true_iff; apply orb_true_iff.
    + left. apply path_import_follows_contains; [|done].
      eapply path_import_follows_delim; [|done]. compute_done.
    + right. by apply Hr.
  - rewrite fixme_split, <- !app_assoc.
    change (w0 ++ fixme_body ++ [rparen] ++ rule3 r)
      with (w0 ++ fixme_body ++ rparen :: rule3 r).
    rewrite (app_assoc w0).
    rewrite !contains_delim by (done || compute_done).
    intros [Hc|Hc]%orb_true_iff; apply orb_true_iff.
    + left. apply contains_app_left.
      apply path_import_follows_contains.
      * subst w. rewrite <- !app_assoc in Hf.
        change (w0 ++ lit "URI.joinPath(" ++ y ++ rparen :: r)
          with (w0 ++ "U" :: lit "RI.joinPath(" ++ y ++ rparen :: r) in Hf.
        eapply path_import_follows_delim; [|done]. compute_done.
      * rewrite uri_import_stmt_split in Hc |- *.
        eapply (contains_last _ ";"); [|done]. compute_done.
    + right. by apply Hr.
Qed.

(** Rule 3 keeps the first character of a text. *)
Lemma rule3_head s d r : rule3 s = d :: r -> exists s', s = d :: s'.
Proof.
  destruct s as [|c s]; [done|].
  destruct (sub_matcher joinpath_pattern joinpath_repl (c :: s))
    as [[rep n]|] eqn:E.
  - apply sub_joinpath_inv in E as (y & rest & ? & ? & Heq & _ & _).
    rewrite Heq, rule3_hit by done.
    unfold joinpath_call, fixme. simpl. intros [= <- _]. eauto.
  - rewrite rule3_miss by done. intros [= <- _]. eauto.
Qed.

(** Where the opening of a rule 2 match ends inside the text rule 3
    writes, it ends after [URI.file(], and [path.join(] stands before the
    text. *)
Lemma join_open_meets_fixme (k u u2 y' : text) :
  is_ctor k -> u2 <> [] ->
  lit "path.join(" ++ lit "URI." ++ k ++ lit "(" = u ++ u2 ->
  fixme_body = u2 ++ y' ->
  u = lit "path.join(".
Proof.
  intros Hk Hu2 E Ef.
  destruct u2 as [|e u2]; [done|].
  injection Ef as <- _.
  destruct Hk as [-> | ->]; vm_compute in E;
    repeat (destruct u as [|? u];
            [simpl in E; first [discriminate | reflexivity]
            |simpl in E; injection E as <- E]);
    destruct u; discriminate.
Qed.

(** Rule 3 makes a new match of rule 2 only out of a [URI.joinPath] call
    that is the first argument of a [path.join] call. *)
Lemma rule3_no_new_join s :
  (forall a b, s = a ++ b ->
     sub_matcher join_pattern join_repl b = None) ->
  joinpath_first_arg_free s ->
  forall x3 t, rule3 s = x3 ++ t ->
    sub_matcher join_pattern join_repl t = None.
Proof.
  induction s as [s IH] using (induction_ltof1 _ (@length ascii)).
  unfold ltof in IH. intros HN HF x3 t E.
  destruct (sub_matcher join_pattern join_repl t) as [[rep n]|] eqn:Hm;
    [exfalso|done].
  apply sub_join_inv in Hm as (k & y' & rest & Hk & Hy' & Hpy' & -> & _ & _).
  assert (forall a q v, q <> [] -> rparen ∉ q ->
            s = a ++ join_call k q ++ v -> False) as Hno.
  { intros a q v ? ? Hs. pose proof (HN a _ Hs) as Hn.
    rewrite sub_join_hit in Hn by done. done. }
  destruct (first_occurrence rparen s) as [Hs|(w & r & -> & Hw)].
  { rewrite rule3_no_paren in E by done. by eapply Hno. }
  assert (forall x3 t, rule3 r = x3 ++ t ->
            sub_matcher join_pattern join_repl t = None) as Hr.
  { apply IH.
    - rewrite length_app. simpl. lia.
    - intros a b ->. apply (HN (w ++ rparen :: a)).
      by rewrite app_cons_assoc.
    - intros x y z ? ? ->. apply (HF (w ++ rparen :: x) y z); try done.
      by rewrite app_cons_assoc. }
  assert (forall z1, rule3 r = z1 ++ join_call k y' ++ rest -> False) as Hr'.
  { intros z1 Ez. apply Hr in Ez. rewrite sub_join_hit in Ez by done. done. }
  pose proof (rparen_join_open k y' Hk Hpy') as Hopen.
  rewrite join_call_split, app_cons_assoc in E.
  destruct (rule3_segment w r Hw) as [Hs|(w0 & y & Hy & Ew & Hs)].
  - rewrite Hs in E.
    apply app_cons_split in E as [(l1 & Et & Ew)|(z1 & Ez & _)].
    2:{ apply (Hr' z1). by rewrite join_call_split, app_cons_assoc. }
    symmetry in Et. apply split_first in Et as [-> Et];
      [|by rewrite Ew, not_elem_of_app in Hw; destruct Hw|done].
    simpl in Et.
    apply rule3_head in Et as [r' ->].
    apply (Hno x3 y' r'); try done.
    rewrite join_call_split, Ew, app_cons_assoc, <- !app_assoc. done.
  - assert (rule3 (w ++ rparen :: r)
            = (w0 ++ fixme_body) ++ rparen :: rule3 r) as Hs'.
    { by rewrite Hs, fixme_split, <- !app_assoc. }
    rewrite Hs' in E.
    apply app_cons_split in E as [(l1 & Et & Ew0)|(z1 & Ez & _)].
    2:{ apply (Hr' z1). by rewrite join_call_split, app_cons_assoc. }
    subst w. rewrite !not_elem_of_app in Hw. destruct Hw as (Hw0 & _ & Hwy).
    assert (rparen ∉ l1) as Hl1.
    { intros Hin.
      assert (rparen ∈ w0 ++ fixme_body) as Hin'.
      { rewrite Ew0. apply elem_of_app. by right. }
      apply elem_of_app in Hin' as [?|?]; [done|].
      by apply rparen_fixme_body. }
    symmetry in Et. apply split_first in Et as [-> Et]; [|done|done].
    simpl in Et.
    apply rule3_head in Et as [r' ->].
    assert (forall u2, w0 = x3 ++ (lit "path.join(" ++ lit "URI." ++ k ++
                                   lit "(") ++ u2 -> False) as Hin.
    { intros u2 ->.
      rewrite !not_elem_of_app in Hw0. destruct Hw0 as (_ & _ & Hu2).
      apply (Hno x3 (u2 ++ lit "URI.joinPath(" ++ y) r').
      - by destruct u2.
      - rewrite !not_elem_of_app. split_and!; [done|compute_done|done].
      - rewrite join_call_split, app_cons_assoc, <- !app_assoc. done. }
    replace (lit "path.join(" ++ lit "URI." ++ k ++ lit "(" ++ y')
      with ((lit "path.join(" ++ lit "URI." ++ k ++ lit "(") ++ y')
      in Ew0 by (by rewrite <- !app_assoc).
    apply app_eq_app in Ew0 as [u [[-> Eo]|[_ Eo]]].
    + apply app_eq_app in Eo as [u2 [[Eo Ef]|[-> _]]].
      * destruct u2 as [|e u2].
        { rewrite app_nil_r in Eo. subst u. apply (Hin []).
          by rewrite app_nil_r. }
        pose proof (join_open_meets_fixme k u (e :: u2) y' Hk
                      ltac:(done) Eo Ef) as ->.
        apply (HF x3 y r'); try done.
        rewrite joinpath_call_split, <- !app_assoc. done.
      * apply (Hin u2). by rewrite <- !app_assoc.
    + assert ("p" ∈ fixme_body) as Hp.
      { rewrite Eo. apply elem_of_app. right. left. }
      revert Hp. compute_done.
Qed.

(** A text that triggers rule 2 nowhere and keeps [URI.joinPath] calls
    out of the first argument of [path.join] does not trigger rule 2
    after rule 3 either. *)
Lemma rule3_keeps_rule2_quiet s :
  re_search join_pattern s = false ->
  joinpath_first_arg_free s ->
  re_search join_pattern (rule3 s) = false.
Proof.
  intros Hs Hf. apply re_search_intro. intros a b E.
  apply (sub_matcher_none _ join_repl).
  eapply rule3_no_new_join; [|done|done].
  intros a' b' ->. apply re_search_false in Hs.
  unfold sub_matcher. by rewrite Hs.
Qed.

(** Rule 1 finds nothing to do in what a run wrote, when no path import
    of the input can disappear into a [URI.joinPath] call. *)
Lemma rule1_second_run c :
  (forall x z, c = x ++ path_import ++ z -> joinpath_closed x) ->
  rule2 (rule1 c) = rule1 c ->
  rule1 (rule3 (rule1 c)) = rule3 (rule1 c).
Proof.
  intros Hc H2.
  destruct (contains path_import c) eqn:Hp.
  - assert (rule1 c = c) as ->.
    { apply rule1_guard_false. unfold rule1_guard. rewrite Hp.
      apply andb_false_r. }
    apply contains_inv in Hp as (x & z & ->).
    destruct (rule3_keeps_block x path_import
                (lit "import * as path from 'path") "'" z)
      as (a3 & b3 & ->); try done; try compute_done.
    { by eapply Hc. }
    apply rule1_guard_false. unfold rule1_guard.
    rewrite contains_app. apply andb_false_r.
  - assert (path_import_follows (rule1 c)) as Hf.
    { unfold rule1. destruct (rule1_guard c) eqn:Hg.
      - apply path_import_follows_str_replace.
      - unfold rule1_guard in Hg. rewrite Hp, andb_true_r in Hg.
        intros x z ->. by rewrite contains_uri_import in Hg. }
    destruct (contains uri_import_stmt (rule3 (rule1 c))) eqn:Hs.
    + apply rule1_guard_false. unfold rule1_guard.
      rewrite (path_import_after_rule3 _ Hf Hs). apply andb_false_r.
    + by apply rule1_no_stmt.
Qed.

Lemma joinpath_first_arg_free_intro s :
  contains (lit "path.join(URI.joinPath(") s = false ->
  joinpath_first_arg_free s.
Proof.
  intros H x y z _ _ E.
  rewrite E in H. unfold joinpath_call in H.
  replace (x ++ lit "path.join(" ++
           (lit "URI.joinPath(" ++ y ++ lit ")") ++ comma :: z)
    with (x ++ lit "path.join(URI.joinPath(" ++
          y ++ lit ")" ++ comma :: z) in H
    by (by rewrite <- !app_assoc).
  by rewrite contains_app in H.
Qed.

Lemma path_imports_closedb_sound x s :
  path_imports_closedb x s = true ->
  forall x' z, s = x' ++ path_import ++ z -> joinpath_closed (x ++ x').
Proof.
  revert x; induction s as [|ch s IH]; intros x H x' z E.
  { by destruct x'. }
  change (path_imports_closedb x (ch :: s))
    with ((negb (starts_with path_import (ch :: s)) || joinpath_closedb x)
          && path_imports_closedb (x ++ [ch]) s) in H.
  apply andb_true_iff in H as [H1 H2].
  destruct x' as [|e x'].
  - rewrite app_nil_r. apply joinpath_closedb_sound.
    change ([] ++ path_import ++ z) with (path_import ++ z) in E.
    by rewrite E, starts_with_app in H1.
  - injection E as -> E.
    replace (x ++ e :: x') with ((x ++ [e]) ++ x')
      by (by rewrite <- app_assoc).
    exact (IH _ H2 _ _ E).
Qed.

(** C4, as stated, fails in two ways, both on inputs that do not trigger
    rule 2 on the first run.  Rule 2 runs before rule 3, so the
    placeholder that rule 3 writes as the first argument of a
    [path.join] call is rewritten by rule 2 on the second run.  And a
    path import literal inside a [URI.joinPath] call keeps rule 1 from
    firing on the first run and is gone after it, so rule 1 fires on the
    second. *)
Lemma second_run_changes_output :
  (let c := lit "path.join(URI.joinPath(a, b), c)" in
   re_search join_pattern (rule1 c) = false /\
   (forall x z, c = x ++ path_import ++ z -> joinpath_closed x) /\
   transform c = lit "path.join(" ++ fixme ++ lit ", c)" /\
   transform (transform c)
   = lit "path.join(" ++ fixme ++ lit ".fsPath, c)" /\
   transform (transform c) <> transform c) /\
  (let c := uri_import_stmt ++ lit "URI.joinPath(" ++ path_import ++ lit ")" in
   re_search join_pattern (rule1 c) = false /\
   joinpath_first_arg_free (rule1 c) /\
   rule1 c = c /\
   transform c = uri_import_stmt ++ fixme /\
   transform (transform c) = uri_path_import_stmt ++ fixme /\
   transform (transform c) <> transform c).
Proof.
  split; split_and!; try by vm_compute.
  - apply (path_imports_closedb_sound []). by vm_compute.
  - apply joinpath_first_arg_free_intro. by vm_compute.
Qed.

(** C4, amended. Take a content on which rule 2 finds no match on the
    first run, in which (after rule 1) no [URI.joinPath] call that rule 3
    replaces is the first argument of a [path.join] call followed by a
    comma, and in which every [URI.joinPath(] before a path import
    literal is closed before that literal.  Then a second run on the
    first run's output changes nothing: the content is a fixed point of
    the three rules, and [fix_file] only reads the file, without a write
    and without a [Fixed] line. *)
Theorem second_run_changes_nothing c :
  re_search join_pattern (rule1 c) = false ->
  joinpath_first_arg_free (rule1 c) ->
  (forall x z, c = x ++ path_import ++ z -> joinpath_closed x) ->
  transform (transform c) = transform c /\
  forall (w : world) (p : string) (wr : bool),
    files w !! p = Some (File (transform c) true wr) ->
    fix_file p w = (log (EvRead p) w, Ok tt) /\
    files (log (EvRead p) w) = files w /\
    console (log (EvRead p) w) = console w.
Proof.
  intros H2 Hf Hc.
  assert (rule2 (rule1 c) = rule1 c) as E2.
  { by apply re_sub_no_match. }
  assert (transform c = rule3 (rule1 c)) as Et.
  { unfold transform. by rewrite E2. }
  assert (transform (transform c) = transform c) as Hfix.
  { rewrite Et. unfold transform at 1.
    rewrite rule1_second_run by done.
    assert (rule2 (rule3 (rule1 c)) = rule3 (rule1 c)) as ->.
    { apply re_sub_no_match. by apply rule3_keeps_rule2_quiet. }
    apply rule3_idempotent. }
  split; [done|]. intros w p wr Hw. split_and!.
  - by eapply fix_file_unchanged.
  - done.
  - apply console_log_read.
Qed.

Lemma second_run_changes_nothing_witness :
  (let c := uri_import_stmt ++
            newline :: lit "const u = URI.joinPath(base, 'x');" in
   transform (transform c) = transform c /\
   forall (w : world) (p : string) (wr : bool),
     files w !! p = Some (File (transform c) true wr) ->
     fix_file p w = (log (EvRead p) w, Ok tt) /\
     files (log (EvRead p) w) = files w /\
     console (log (EvRead p) w) = console w) /\
  (let c := lit "const u = URI.joinPath(a, b);" ++
            newline :: path_import ++ lit ";" in
   transform (transform c) = transform c /\
   forall (w : world) (p : string) (wr : bool),
     files w !! p = Some (File (transform c) true wr) ->
     fix_file p w = (log (EvRead p) w, Ok tt) /\
     files (log (EvRead p) w) = files w /\
     console (log (EvRead p) w) = console w).
Proof.
  split; intros c; apply (second_run_changes_nothing c).
  - vm_compute. reflexivity.
  - apply joinpath_first_arg_free_intro. vm_compute. reflexivity.
  - apply (path_imports_closedb_sound []). vm_compute. reflexivity.
  - vm_compute. reflexivity.
  - apply joinpath_first_arg_free_intro. vm_compute. reflexivity.
  - apply (path_imports_closedb_sound []). vm_compute. reflexivity.
Defined.

End SecondRun.
